(** * recent-branches: the branch recency resolver and the safe-switch workflow

    A shallow embedding of [git.go] and [main.go].  Both files hold two copies
    of the program text (two [package main] blocks each); where the copies
    differ, both are embedded and named after the copy they come from.

    External processes are modelled by an oracle: a read-only query is a
    function of the repository snapshot, a mutating command is a transition of
    the repository chosen by the environment.  Library functions whose result
    the program only passes on ([time.Parse], [strings.ToLower]) are
    parameters of the development.  So is [sort.Slice] in the statements,
    which assume what its documentation promises; the routine of the Go
    library is embedded as well and proved to keep that promise. *)

From Stdlib Require Import ZArith Lia Bool Ascii String.
From Stdlib Require Import Sorting.Permutation.
From stdpp Require Import base option list gmap strings.

Local Open Scope string_scope.
Local Open Scope list_scope.

(** ** The Go [strings] package, as far as the program uses it.
    A Go string is a sequence of bytes; so is a [string] here. *)
Module GoStrings.

Fixpoint drop (n : nat) (s : string) : string :=
  match n, s with
  | S k, String _ s' => drop k s'
  | _, _ => s
  end.

Fixpoint take (n : nat) (s : string) : string :=
  match n, s with
  | S k, String c s' => String c (take k s')
  | _, _ => EmptyString
  end.

Definition HasPrefix (s pre : string) : bool := String.prefix pre s.

Definition TrimPrefix (s pre : string) : string :=
  if HasPrefix s pre then drop (String.length pre) s else s.

Definition HasSuffix (s suf : string) : bool :=
  (String.length suf <=? String.length s)%nat
  && String.eqb (drop (String.length s - String.length suf) s) suf.

Definition TrimSuffix (s suf : string) : string :=
  if HasSuffix s suf then take (String.length s - String.length suf) s else s.

(** [Index s sub]: the byte offset of the first occurrence of [sub]. *)
Fixpoint Index (s sub : string) : option nat :=
  if String.prefix sub s then Some 0
  else match s with
       | EmptyString => None
       | String _ s' => S <$> Index s' sub
       end.

Definition Contains (s sub : string) : bool := bool_decide (is_Some (Index s sub)).

(** [genSplit] of the Go library for a non-empty separator: cut at the
    first occurrence, continue behind it, at most [n] cuts.  Every cut
    consumes a byte, so the length of [s] bounds the number of rounds. *)
Fixpoint genSplit (fuel : nat) (s sep : string) (n : nat) : list string :=
  match fuel, n with
  | S fuel', S n' =>
      match Index s sep with
      | Some m => take m s :: genSplit fuel' (drop (m + String.length sep) s) sep n'
      | None => [s]
      end
  | _, _ => [s]
  end.

Definition Split (s sep : string) : list string :=
  genSplit (String.length s) s sep (String.length s).

(** [SplitN s sep n] for [n > 0]: at most [n] pieces, the last one the
    unsplit remainder. *)
Definition SplitN (s sep : string) (n : nat) : list string :=
  genSplit (String.length s) s sep (n - 1).

Definition byte (n : nat) : ascii := ascii_of_nat n.

Definition asciiSpace (c : ascii) : bool :=
  let n := nat_of_ascii c in
  (n =? 9)%nat || (n =? 10)%nat || (n =? 11)%nat || (n =? 12)%nat
  || (n =? 13)%nat || (n =? 32)%nat.

(** White space of [unicode.IsSpace] beyond ASCII, by its UTF-8 bytes:
    U+0085, U+00A0 (C2 ..), U+1680 (E1 9A 80), U+2000..U+200A, U+2028,
    U+2029, U+202F (E2 80 ..), U+205F (E2 81 9F), U+3000 (E3 80 80). *)
Definition space2 (b1 b2 : ascii) : bool :=
  let n1 := nat_of_ascii b1 in let n2 := nat_of_ascii b2 in
  (n1 =? 194)%nat && ((n2 =? 133)%nat || (n2 =? 160)%nat).

Definition space3 (b1 b2 b3 : ascii) : bool :=
  let n1 := nat_of_ascii b1 in let n2 := nat_of_ascii b2 in
  let n3 := nat_of_ascii b3 in
  ((n1 =? 225)%nat && (n2 =? 154)%nat && (n3 =? 128)%nat)
  || ((n1 =? 226)%nat && (n2 =? 128)%nat
      && (((128 <=? n3)%nat && (n3 <=? 138)%nat)
          || (n3 =? 168)%nat || (n3 =? 169)%nat || (n3 =? 175)%nat))
  || ((n1 =? 226)%nat && (n2 =? 129)%nat && (n3 =? 159)%nat)
  || ((n1 =? 227)%nat && (n2 =? 128)%nat && (n3 =? 128)%nat).

Fixpoint trimLeft (s : string) : string :=
  match s with
  | String c1 r1 =>
      if asciiSpace c1 then trimLeft r1
      else match r1 with
           | String c2 r2 =>
               if space2 c1 c2 then trimLeft r2
               else match r2 with
                    | String c3 r3 => if space3 c1 c2 c3 then trimLeft r3 else s
                    | EmptyString => s
                    end
           | EmptyString => s
           end
  | EmptyString => s
  end.

Fixpoint rev (acc s : string) : string :=
  match s with
  | EmptyString => acc
  | String c s' => rev (String c acc) s'
  end.

(** The same scan from the end, on the reversed string: the bytes of a
    rune arrive last byte first. *)
Fixpoint trimLeftRev (s : string) : string :=
  match s with
  | String c1 r1 =>
      if asciiSpace c1 then trimLeftRev r1
      else match r1 with
           | String c2 r2 =>
               if space2 c2 c1 then trimLeftRev r2
               else match r2 with
                    | String c3 r3 => if space3 c3 c2 c1 then trimLeftRev r3 else s
                    | EmptyString => s
                    end
           | EmptyString => s
           end
  | EmptyString => s
  end.

Definition trimRight (s : string) : string :=
  rev EmptyString (trimLeftRev (rev EmptyString s)).

Definition TrimSpace (s : string) : string := trimRight (trimLeft s).

Definition nl : string := String (byte 10) EmptyString.

End GoStrings.


(** ** Time, process results and the repository snapshot *)

(** A [time.Time] instant, counted from the zero [Time]. *)
Definition Time : Type := Z.
Definition zeroTime : Time := 0%Z.
Definition After (t u : Time) : bool := (u <? t)%Z.

(** A Go [error]: [None] is [nil], otherwise the message. *)
Definition error : Type := option string.

(** What [exec.Command(...).Output()] hands back. *)
Record Output : Type := mkOutput { stdout : string; err : error }.

(** The Process Runner for read-only queries: [git r args] is the result of
    running [git args] in the working tree; [now r n] is the [n]-th reading of
    [time.Now()] in the course of one call. *)
Record Repo : Type := mkRepo {
  git : list string -> Output;
  now : nat -> Time
}.

(** A function that returns [(value, error)], or panics. *)
Inductive Result (A : Type) : Type :=
| Ok (a : A)
| Err (e : string)
| Panic (reason : string).
Arguments Ok {A} a.
Arguments Err {A} e.
Arguments Panic {A} reason.

Record Branch : Type := mkBranch {
  Name : string;
  CommitDate : Time;
  CommitTitle : string;
  LastUsed : Time;
  IsRemote : bool;
  RelativeTime : string
}.

#[global] Instance Branch_eq_dec : EqDecision Branch.
Proof. solve_decision. Defined.

#[global] Instance Branch_inhabited : Inhabited Branch :=
  populate (mkBranch "" 0%Z "" 0%Z false "").

(** The key under which a branch is looked up: its name without the
    remote display suffix (git.go, [branchKey] and [branchName]). *)
Definition branchKey (b : Branch) : string :=
  if IsRemote b then GoStrings.TrimSuffix (Name b) " (remote)" else Name b.

(** Which of the two copies of a source file a definition follows. *)
Inductive Copy : Type := First | Second.

(** ** git.go: the service *)
Section GitService.

Import GoStrings.

(** [time.Parse layout value] and [strings.ToLower]. *)
Variable time_Parse : string -> string -> option Time.
Variable ToLower : string -> string.

(** [sort.Slice] on a slice of branches with the given [less]. *)
Variable sort_Slice : (Branch -> Branch -> bool) -> list Branch -> list Branch.

Definition IsInRepository (r : Repo) : error :=
  err (git r ["rev-parse"; "--git-dir"]).

Definition GetCurrentBranch (r : Repo) : string * error :=
  let o := git r ["rev-parse"; "--abbrev-ref"; "HEAD"] in
  match err o with
  | Some e => ("", Some e)
  | None => (TrimSpace (stdout o), None)
  end.

Definition GetCurrentUser (r : Repo) : string * error :=
  let o := git r ["config"; "user.email"] in
  match err o with
  | None => (TrimSpace (stdout o), None)
  | Some _ =>
      let o' := git r ["config"; "user.name"] in
      match err o' with
      | Some e => ("", Some e)
      | None => (TrimSpace (stdout o'), None)
      end
  end.

Definition HasUncommittedChanges (r : Repo) : bool * error :=
  let stagedErr := err (git r ["diff"; "--cached"; "--quiet"]) in
  let unstagedErr := err (git r ["diff"; "--quiet"]) in
  (bool_decide (stagedErr <> None) || bool_decide (unstagedErr <> None), None).

Definition gitDateFormats : list string :=
  [ "2006-01-02T15:04:05-07:00"; "2006-01-02T15:04:05Z";
    "2006-01-02T15:04:05+00:00"; "2006-01-02 15:04:05 -0700" ].

Fixpoint firstParse (formats : list string) (dateStr : string) : option Time :=
  match formats with
  | [] => None
  | format :: rest =>
      match time_Parse format dateStr with
      | Some t => Some t
      | None => firstParse rest dateStr
      end
  end.

Definition parseGitDate (dateStr : string) : option Time :=
  firstParse gitDateFormats dateStr.

Definition parseTimestamp (timestampStr : string) : option Time :=
  time_Parse "1136239445" timestampStr.

(** One round of the loop of [getBranchInfo]; [tick] counts the readings
    of the clock taken so far. *)
Definition branchLine (r : Repo) (st : list Branch * nat) (line : string)
  : list Branch * nat :=
  let '(branches, tick) := st in
  if String.eqb line "" then st
  else match SplitN line "|" 3 with
       | [p0; p1; p2] =>
           let branchName := TrimSpace p0 in
           let dateStr := TrimSpace p1 in
           let commitTitle := TrimSpace p2 in
           if String.eqb branchName "" then st
           else
             let '(commitDate, tick') :=
               match parseGitDate dateStr with
               | Some t => (t, tick)
               | None => (now r tick, S tick)
               end in
             let isRemote := HasPrefix branchName "origin/" in
             let displayName :=
               if isRemote then TrimPrefix branchName "origin/" +:+ " (remote)"
               else branchName in
             (branches ++ [mkBranch displayName commitDate commitTitle zeroTime isRemote ""],
              tick')
       | _ => st
       end.

Definition forEachRef (refPath : string) : list string :=
  [ "for-each-ref"; "--sort=-committerdate";
    "--format=%(refname:short)|%(committerdate:iso8601)|%(contents:subject)";
    refPath ].

Definition getBranchInfo (refPath : string) (r : Repo) (tick : nat)
  : Result (list Branch) * nat :=
  let o := git r (forEachRef refPath) in
  match err o with
  | Some e => (Err ("failed to get git branches for " +:+ refPath +:+ ": " +:+ e), tick)
  | None =>
      if String.eqb (TrimSpace (stdout o)) "" then (Ok [], tick)
      else
        let lines := Split (TrimSpace (stdout o)) nl in
        let '(branches, tick') := fold_left (branchLine r) lines ([], tick) in
        (Ok branches, tick')
  end.

Definition baseBranches : list string := ["main"; "master"; "develop"; "dev"].

Fixpoint tryBases (r : Repo) (bases : list string) (branchName : string) : option string :=
  match bases with
  | [] => None
  | base :: rest =>
      let o := git r ["merge-base"; base; branchName] in
      if bool_decide (err o = None) && negb (String.eqb (TrimSpace (stdout o)) "")
      then Some (TrimSpace (stdout o))
      else tryBases r rest branchName
  end.

Definition findMergeBase (r : Repo) (branchName : string) : string * error :=
  match tryBases r baseBranches branchName with
  | Some base => (base, None)
  | None =>
      let o := git r ["rev-list"; "--max-parents=0"; "HEAD"] in
      match err o with
      | Some e => ("", Some e)
      | None => (TrimSpace (stdout o), None)
      end
  end.

(** The inner loop over [authors] for one commit. *)
Definition authorMatches (authors : list string) (currentUser email name : string) : bool :=
  existsb (fun author =>
    if String.eqb author "mine"
    then String.eqb email currentUser || String.eqb name currentUser
    else Contains (ToLower email) (ToLower author)
         || Contains (ToLower name) (ToLower author)) authors.

(** The loop over the lines of [git log --format=%ae|%an]. *)
Definition commitLineMatches (authors : list string) (currentUser line : string) : bool :=
  if String.eqb line "" then false
  else match SplitN line "|" 2 with
       | [p0; p1] => authorMatches authors currentUser (TrimSpace p0) (TrimSpace p1)
       | _ => false
       end.

(** The two copies of [branchHasAuthorCommits] differ in one statement:
    what is returned when the log of unique commits is empty.  The first
    copy says "we'll include it anyway since it's a valid branch"
    ([return true, nil]), the second [return false, nil]. *)
Definition noUniqueCommits (copy : Copy) : bool :=
  match copy with
  | First => true
  | Second => false
  end.

(** The name a branch goes by in the commands ([gitBranchName]). *)
Definition gitBranchName (branch : Branch) : string :=
  if IsRemote branch then "origin/" +:+ branchKey branch else branchKey branch.

(** The query for the commits that are on the branch but not on its base. *)
Definition uniqueLog (r : Repo) (mergeBase : string) (branch : Branch) : Output :=
  git r ["log"; "--format=%ae|%an"; mergeBase +:+ ".." +:+ gitBranchName branch].

Definition branchHasAuthorCommits (copy : Copy) (r : Repo)
    (branch : Branch) (authors : list string) (currentUser : string) : bool * error :=
  let branchName := branchKey branch in
  if String.eqb branchName "main" || String.eqb branchName "master" then (true, None)
  else
    match findMergeBase r (gitBranchName branch) with
    | (_, Some _) => (true, None)
    | (mergeBase, None) =>
        let o := uniqueLog r mergeBase branch in
        match err o with
        | Some _ => (true, None)
        | None =>
            if String.eqb (TrimSpace (stdout o)) "" then (noUniqueCommits copy, None)
            else
              let commitLines := Split (TrimSpace (stdout o)) nl in
              (existsb (commitLineMatches authors currentUser) commitLines, None)
        end
    end.

(** *** GetRecentBranches, step by step *)

(** One round of the loop over the reflog lines. *)
Definition reflogLine (m : gmap string Time) (line : string) : gmap string Time :=
  if String.eqb line "" then m
  else match SplitN line "|" 3 with
       | [_; subject; timestampStr] =>
           if Contains subject "checkout: moving from" && Contains subject " to "
           then match Split subject " to " with
                | _ :: target :: _ =>
                    let targetBranch := TrimSpace target in
                    match parseTimestamp timestampStr with
                    | None => m
                    | Some timestamp =>
                        match m !! targetBranch with
                        | Some existing =>
                            if After timestamp existing
                            then <[targetBranch := timestamp]> m else m
                        | None => <[targetBranch := timestamp]> m
                        end
                    end
                | _ => m
                end
           else m
       | _ => m
       end.

Definition reflogArgs : list string :=
  ["reflog"; "--all"; "--grep-reflog=checkout:"; "--format=%gd|%gs|%gt"].

Definition checkoutTimes (reflogOutput : string) : gmap string Time :=
  fold_left reflogLine (Split (TrimSpace reflogOutput) nl) ∅.

(** The map after the current branch has been stamped, and the number of
    clock readings taken. *)
Definition branchLastUsed (r : Repo) : gmap string Time * nat :=
  let m := checkoutTimes (stdout (git r reflogArgs)) in
  let currentBranch := fst (GetCurrentBranch r) in
  if String.eqb currentBranch "" then (m, 0) else (<[currentBranch := now r 0]> m, 1).

Definition authorsActive (authors : list string) : bool :=
  match authors with
  | a :: _ => negb (String.eqb a "all")
  | [] => false
  end.

Definition wantsMine (authors : list string) : bool :=
  match authors with
  | a :: _ => String.eqb a "mine"
  | [] => false
  end.

Section Resolve.

Variable copy : Copy.

Definition filterBranches (r : Repo) (authors : list string) (currentUser : string)
    (allBranches : list Branch) : list Branch :=
  if authorsActive authors
  then List.filter (fun branch =>
         match branchHasAuthorCommits copy r branch authors currentUser with
         | (_, Some _) => true
         | (shouldInclude, None) => shouldInclude
         end) allBranches
  else allBranches.

Definition setLastUsed (m : gmap string Time) (branch : Branch) : Branch :=
  match m !! branchKey branch with
  | Some lastUsed =>
      mkBranch (Name branch) (CommitDate branch) (CommitTitle branch) lastUsed
               (IsRemote branch) (RelativeTime branch)
  | None =>
      mkBranch (Name branch) (CommitDate branch) (CommitTitle branch) (CommitDate branch)
               (IsRemote branch) (RelativeTime branch)
  end.

Definition byLastUsed (x y : Branch) : bool := After (LastUsed x) (LastUsed y).

(** [branches[:count]] under the guard [len(branches) > count]. *)
Definition limitTo (count : Z) (branches : list Branch) : Result (list Branch) :=
  if (count <? Z.of_nat (length branches))%Z
  then if (count <? 0)%Z then Panic "slice bounds out of range"
       else Ok (firstn (Z.to_nat count) branches)
  else Ok branches.

(** The enumeration: local branches, then the remote ones if asked for
    (an error of the second listing is dropped). *)
Definition enumerate (includeRemote : bool) (r : Repo) : Result (list Branch) :=
  let tick := snd (branchLastUsed r) in
  match getBranchInfo "refs/heads/" r tick with
  | (Ok localBranches, tick') =>
      if includeRemote
      then match fst (getBranchInfo "refs/remotes/" r tick') with
           | Ok remoteBranches => Ok (localBranches ++ remoteBranches)
           | _ => Ok localBranches
           end
      else Ok localBranches
  | (Err e, _) => Err e
  | (Panic p, _) => Panic p
  end.

(** The slice handed to [sort.Slice]. *)
Definition stamped (r : Repo) (authors : list string) (currentUser : string)
    (allBranches : list Branch) : list Branch :=
  map (setLastUsed (fst (branchLastUsed r)))
      (filterBranches r authors currentUser allBranches).

Definition GetRecentBranches (count : Z) (includeRemote : bool)
    (authors : list string) (r : Repo) : Result (list Branch) :=
  match IsInRepository r with
  | Some _ => Err "not in a git repository"
  | None =>
      match (if wantsMine authors then GetCurrentUser r else ("", None)) with
      | (_, Some e) => Err ("failed to get current user: " +:+ e)
      | (currentUser, None) =>
          match err (git r reflogArgs) with
          | Some e => Err ("failed to get git reflog: " +:+ e)
          | None =>
              match enumerate includeRemote r with
              | Ok allBranches =>
                  limitTo count
                    (sort_Slice byLastUsed (stamped r authors currentUser allBranches))
              | Err e => Err e
              | Panic p => Panic p
              end
          end
      end
  end.

End Resolve.

End GitService.

(** ** The Go [sort] package: [sort.Slice]

    [sort.Slice] is not part of the repository; it is embedded here from the
    Go standard library (pattern-defeating quicksort, Go 1.19 and later) so
    that the order of equal elements can be computed.  [data] is the slice,
    [Less i j] and [Swap i j] are the two closures [sort.Slice] works with.
    Loops carry a bound on their number of rounds. *)
Module GoSort.
Section Pdqsort.

Context {A : Type} (less : A -> A -> bool).

Definition Less (data : list A) (i j : nat) : bool :=
match data !! i, data !! j with
| Some x, Some y => less x y
| _, _ => false
end.

Definition Swap (data : list A) (i j : nat) : list A :=
match data !! i, data !! j with
| Some x, Some y => <[i := y]> (<[j := x]> data)
| _, _ => data
end.

(** [for j := i; j > a && Less(j, j-1); j-- { Swap(j, j-1) }] *)
Fixpoint insertDown (data : list A) (a j : nat) : list A :=
match j with
| S j' => if (a <? j)%nat && Less data j j' then insertDown (Swap data j j') a j' else data
| O => data
end.

Fixpoint insertFrom (rounds : nat) (data : list A) (a i b : nat) : list A :=
match rounds with
| S rounds' =>
    if (i <? b)%nat then insertFrom rounds' (insertDown data a i) a (S i) b else data
| O => data
end.

Definition insertionSort (data : list A) (a b : nat) : list A :=
insertFrom (b - a) data a (a + 1) b.

Fixpoint siftDown (rounds : nat) (data : list A) (root hi first : nat) : list A :=
match rounds with
| S rounds' =>
    let child := 2 * root + 1 in
    if (hi <=? child)%nat then data
    else
      let child :=
        if (child + 1 <? hi)%nat && Less data (first + child) (first + child + 1)
        then child + 1 else child in
      if negb (Less data (first + root) (first + child)) then data
      else siftDown rounds' (Swap data (first + root) (first + child)) child hi first
| O => data
end.

(** [for i := (hi - 1) / 2; i >= 0; i-- { siftDown(data, i, hi, first) }] *)
Fixpoint heapify (i : nat) (data : list A) (hi first : nat) : list A :=
let data' := siftDown hi data i hi first in
match i with
| S i' => heapify i' data' hi first
| O => data'
end.

(** [for i := hi - 1; i >= 0; i-- { Swap(first, first+i); siftDown(data, lo, i, first) }] *)
Fixpoint popAll (i : nat) (data : list A) (first : nat) : list A :=
let data' := siftDown i (Swap data first (first + i)) 0 i first in
match i with
| S i' => popAll i' data' first
| O => data'
end.

Definition heapSort (data : list A) (a b : nat) : list A :=
let hi := b - a in
match hi with
| O => siftDown 0 data 0 0 a
| S hi' => popAll hi' (heapify (hi' / 2) data hi a) a
end.

Inductive sortedHint : Type := unknownHint | increasingHint | decreasingHint.

Definition order2 (data : list A) (a b swaps : nat) : nat * nat * nat :=
if Less data b a then (b, a, S swaps) else (a, b, swaps).

Definition median (data : list A) (a b c swaps : nat) : nat * nat :=
let '(a, b, swaps) := order2 data a b swaps in
let '(b, c, swaps) := order2 data b c swaps in
let '(a, b, swaps) := order2 data a b swaps in
(b, swaps).

Definition medianAdjacent (data : list A) (a swaps : nat) : nat * nat :=
median data (a - 1) a (a + 1) swaps.

Definition choosePivot (data : list A) (a b : nat) : nat * sortedHint :=
let l := b - a in
let i := a + l / 4 * 1 in
let j := a + l / 4 * 2 in
let k := a + l / 4 * 3 in
let '(j, swaps) :=
  if (8 <=? l)%nat then
    let '(i, j, k, swaps) :=
      if (50 <=? l)%nat then
        let '(i, swaps) := medianAdjacent data i 0 in
        let '(j, swaps) := medianAdjacent data j swaps in
        let '(k, swaps) := medianAdjacent data k swaps in
        (i, j, k, swaps)
      else (i, j, k, 0) in
    median data i j k swaps
  else (j, 0) in
match swaps with
| 0 => (j, increasingHint)
| 12 => (j, decreasingHint)
| _ => (j, unknownHint)
end.

Fixpoint reverseLoop (rounds : nat) (data : list A) (i j : nat) : list A :=
match rounds with
| S rounds' =>
    if (i <? j)%nat then reverseLoop rounds' (Swap data i j) (i + 1) (j - 1) else data
| O => data
end.

Definition reverseRange (data : list A) (a b : nat) : list A :=
reverseLoop (b - a) data a (b - 1).

(** [for i < b && !Less(i, i-1) { i++ }] *)
Fixpoint skipOrdered (rounds : nat) (data : list A) (i b : nat) : nat :=
match rounds with
| S rounds' =>
    if (i <? b)%nat && negb (Less data i (i - 1)) then skipOrdered rounds' data (i + 1) b
    else i
| O => i
end.

(** [for j := i - 1; j >= 1; j-- { if !Less(j, j-1) { break }; Swap(j, j-1) }] *)
Fixpoint shiftLeft (data : list A) (j : nat) : list A :=
match j with
| S j' => if negb (Less data j j') then data else shiftLeft (Swap data j j') j'
| O => data
end.

(** [for j := i + 1; j < b; j++ { if !Less(j, j-1) { break }; Swap(j, j-1) }] *)
Fixpoint shiftRight (rounds : nat) (data : list A) (j b : nat) : list A :=
match rounds with
| S rounds' =>
    if (j <? b)%nat
    then if negb (Less data j (j - 1)) then data
         else shiftRight rounds' (Swap data j (j - 1)) (j + 1) b
    else data
| O => data
end.

Fixpoint partialSteps (steps : nat) (data : list A) (a i b : nat) : list A * bool :=
match steps with
| S steps' =>
    let i := skipOrdered (b - a) data i b in
    if (i =? b)%nat then (data, true)
    else if (b - a <? 50)%nat then (data, false)
    else
      let data := Swap data i (i - 1) in
      let data := if (2 <=? i - a)%nat then shiftLeft data (i - 1) else data in
      let data := if (2 <=? b - i)%nat then shiftRight (b - a) data (i + 1) b else data in
      partialSteps steps' data a i b
| O => (data, false)
end.

Definition partialInsertionSort (data : list A) (a b : nat) : list A * bool :=
partialSteps 5 data a (a + 1) b.

(** [for i <= j && cond(i) { i++ }] and [for i <= j && cond(j) { j-- }] *)
Fixpoint scanUp (rounds : nat) (cond : nat -> bool) (i j : nat) : nat :=
match rounds with
| S rounds' => if (i <=? j)%nat && cond i then scanUp rounds' cond (i + 1) j else i
| O => i
end.

Fixpoint scanDown (rounds : nat) (cond : nat -> bool) (i j : nat) : nat :=
match rounds with
| S rounds' => if (i <=? j)%nat && cond j then scanDown rounds' cond i (j - 1) else j
| O => j
end.

Fixpoint partitionEqualLoop (rounds : nat) (data : list A) (a i j : nat) : list A * nat :=
match rounds with
| S rounds' =>
    let i := scanUp (S j) (fun i => negb (Less data a i)) i j in
    let j := scanDown (S j) (fun j => Less data a j) i j in
    if (j <? i)%nat then (data, i)
    else partitionEqualLoop rounds' (Swap data i j) a (i + 1) (j - 1)
| O => (data, i)
end.

Definition partitionEqual (data : list A) (a b pivot : nat) : list A * nat :=
let data := Swap data a pivot in
partitionEqualLoop (b - a) data a (a + 1) (b - 1).

Fixpoint partitionLoop (rounds : nat) (data : list A) (a i j : nat) : list A * nat :=
match rounds with
| S rounds' =>
    let i := scanUp (S j) (fun i => Less data i a) i j in
    let j := scanDown (S j) (fun j => negb (Less data j a)) i j in
    if (j <? i)%nat then (data, j)
    else partitionLoop rounds' (Swap data i j) a (i + 1) (j - 1)
| O => (data, j)
end.

Definition partition (data : list A) (a b pivot : nat) : list A * nat * bool :=
let data := Swap data a pivot in
let i := scanUp b (fun i => Less data i a) (a + 1) (b - 1) in
let j := scanDown b (fun j => negb (Less data j a)) i (b - 1) in
if (j <? i)%nat then (Swap data j a, j, true)
else
  let data := Swap data i j in
  let '(data, j) := partitionLoop (b - a) data a (i + 1) (j - 1) in
  (Swap data j a, j, false).

(** [xorshift.Next] on 64 bits. *)
Definition xorshiftNext (r : N) : N :=
let m := (2 ^ 64)%N in
let r := N.lxor r (N.shiftl r 13 mod m) in
let r := N.lxor r (N.shiftr r 7) in
N.lxor r (N.shiftl r 17 mod m).

Definition bitsLen (n : nat) : nat :=
match n with
| O => 0
| _ => S (Nat.log2 n)
end.

Fixpoint breakLoop (rounds i : nat) (random : N) (data : list A)
  (a idx length modulus : nat) : list A :=
match rounds with
| S rounds' =>
    let random := xorshiftNext random in
    let other := N.to_nat (N.land random (N.of_nat (modulus - 1))) in
    let other := if (length <=? other)%nat then other - length else other in
    breakLoop rounds' (i + 1) random (Swap data (idx - 1 + i) (a + other))
              a idx length modulus
| O => data
end.

Definition breakPatterns (data : list A) (a b : nat) : list A :=
let length := b - a in
if (8 <=? length)%nat then
  breakLoop 3 0 (N.of_nat length) data a (a + length / 4 * 2 - 1) length
            (2 ^ bitsLen length)
else data.

Definition isIncreasing (h : sortedHint) : bool :=
match h with increasingHint => true | _ => false end.

(** [pdqsort_func]: a round of its loop or a recursive call per unit of
  [fuel]; the range [a, b) shrinks each time. *)
Fixpoint pdqsort (fuel : nat) (data : list A) (a b limit : nat)
  (wasBalanced wasPartitioned : bool) : list A :=
match fuel with
| O => data
| S fuel' =>
    let length := b - a in
    if (length <=? 12)%nat then insertionSort data a b
    else if (limit =? 0)%nat then heapSort data a b
    else
      let '(data, limit) :=
        if negb wasBalanced then (breakPatterns data a b, limit - 1) else (data, limit) in
      let '(pivot, hint) := choosePivot data a b in
      let '(data, pivot, hint) :=
        match hint with
        | decreasingHint => (reverseRange data a b, (b - 1) - (pivot - a), increasingHint)
        | _ => (data, pivot, hint)
        end in
      let '(data, done) :=
        if wasBalanced && wasPartitioned && isIncreasing hint
        then partialInsertionSort data a b else (data, false) in
      if done then data
      else if (0 <? a)%nat && negb (Less data (a - 1) pivot) then
        let '(data, mid) := partitionEqual data a b pivot in
        pdqsort fuel' data mid b limit wasBalanced wasPartitioned
      else
        let '(data, mid, alreadyPartitioned) := partition data a b pivot in
        let leftLen := mid - a in
        let rightLen := b - mid in
        let balanceThreshold := length / 8 in
        if (leftLen <? rightLen)%nat then
          let wasBalanced := (balanceThreshold <=? leftLen)%nat in
          let data := pdqsort fuel' data a mid limit true true in
          pdqsort fuel' data (mid + 1) b limit wasBalanced alreadyPartitioned
        else
          let wasBalanced := (balanceThreshold <=? rightLen)%nat in
          let data := pdqsort fuel' data (mid + 1) b limit true true in
          pdqsort fuel' data a mid limit wasBalanced alreadyPartitioned
end.

Definition Slice (data : list A) : list A :=
let n := length data in
pdqsort (S n) data 0 n (bitsLen n) true true.

End Pdqsort.
End GoSort.

(** ** Commands that change the repository, and main.go *)

(** The state a mutating command runs in: the repository and the list of
    mutating commands issued so far (argument vectors of [git]). *)
Definition Sys : Type := Repo * list (list string).

Inductive LogLevel : Type := DEBUG | INFO | ERROR | SUCCESS.

Section Workflow.

Import GoStrings.

Variable time_Parse : string -> string -> option Time.
Variable ToLower : string -> string.
Variable sort_Slice : (Branch -> Branch -> bool) -> list Branch -> list Branch.

(** The environment: what a mutating command prints, whether it fails,
    and the repository it leaves behind. *)
Variable run : list string -> Repo -> Output * Repo.

Definition exec (args : list string) (s : Sys) : Output * Sys :=
  let '(o, r') := run args (fst s) in (o, (r', snd s ++ [args])).

(** The "Prepare commit message" block of [CommitChanges]. *)
Definition commitMessage (subject description : string) : string :=
  if negb (String.eqb (TrimSpace description) "")
  then subject +:+ nl +:+ nl +:+ description
  else subject.

Definition CommitChanges (subject description : string) (s : Sys) : error * Sys :=
  let '(o, s) := exec ["add"; "-A"] s in
  match err o with
  | Some e => (Some ("failed to stage changes: " +:+ e), s)
  | None =>
      let message := commitMessage subject description in
      let '(o, s) := exec ["commit"; "-m"; message] s in
      match err o with
      | Some e => (Some ("failed to commit changes: " +:+ e), s)
      | None => (None, s)
      end
  end.

Definition StashChanges (branchName : string) (s : Sys) : error * Sys :=
  let stashMessage := "WIP: changes before switching to " +:+ branchName in
  let '(o, s) := exec ["stash"; "push"; "-m"; stashMessage] s in
  match err o with
  | Some e => (Some ("failed to stash changes: " +:+ e), s)
  | None => (None, s)
  end.

Definition checkout (actualBranchName : string) (s : Sys) : error * Sys :=
  let '(o, s) := exec ["checkout"; actualBranchName] s in
  match err o with
  | Some e =>
      (Some ("failed to checkout branch " +:+ actualBranchName +:+ ": " +:+ e
             +:+ nl +:+ "Output: " +:+ stdout o), s)
  | None => (None, s)
  end.

Definition SwitchToBranch (branchName : string) (s : Sys) : error * Sys :=
  if HasSuffix branchName " (remote)" then
    let actualBranchName := TrimSuffix branchName " (remote)" in
    match err (git (fst s) ["show-ref"; "--verify"; "--quiet";
                            "refs/heads/" +:+ actualBranchName]) with
    | Some _ =>
        let '(o, s) :=
          exec ["checkout"; "-b"; actualBranchName; "origin/" +:+ actualBranchName] s in
        match err o with
        | Some e =>
            (Some ("failed to create and checkout branch " +:+ actualBranchName +:+ ": "
                   +:+ e +:+ nl +:+ "Output: " +:+ stdout o), s)
        | None => (None, s)
        end
    | None => checkout actualBranchName s
    end
  else checkout branchName s.

(** *** main.go.  The state of the user interface is kept abstract: the
    workflow reaches it through [commitModal.Show] and, in the second
    copy, through the log viewer. *)
Variable Model : Type.
Variable Show : string -> Repo -> Model -> Model.
Variable addLogEntry : LogLevel -> string -> Model -> Model.

(** The part of [main] that turns the [-author] flag into [authors]. *)
Definition parseAuthors (authorFlag : string) : list string :=
  if negb (String.eqb authorFlag "") then
    if String.eqb authorFlag "mine" then ["mine"]
    else if String.eqb authorFlag "all" then ["all"]
    else map TrimSpace (Split authorFlag ",")
  else ["mine"].

(** [loadBranches] on a model with the given [count], [includeRemote]
    and [authors]; [service] names the copy of git.go it is linked with. *)
Definition loadBranches (service : Copy) (count : Z) (includeRemote : bool)
    (authors : list string) (r : Repo) : Result (list Branch) :=
  GetRecentBranches time_Parse ToLower sort_Slice service count includeRemote authors r.

(** [main] up to its first [loadBranches], from the values of the flags
    [-n], [-remote] and [-author]. *)
Definition mainLoad (service : Copy) (n : Z) (remote : bool) (authorFlag : string)
    (r : Repo) : Result (list Branch) :=
  loadBranches service n remote (parseAuthors authorFlag) r.

(** The name compared with the current branch ([cleanBranchName]). *)
Definition cleanBranchName (branchName : string) : string :=
  if HasSuffix branchName " (remote)" then TrimSuffix branchName " (remote)" else branchName.

(** [switchToBranch] of the first copy of main.go (no logging, no look at
    the current branch). *)
Definition switchToBranch1 (branchName : string) (m : Model) (s : Sys)
  : error * Model * Sys :=
  match HasUncommittedChanges (fst s) with
  | (_, Some e) => (Some ("failed to check for uncommitted changes: " +:+ e), m, s)
  | (hasChanges, None) =>
      if hasChanges then (None, Show branchName (fst s) m, s)
      else let '(e, s) := SwitchToBranch branchName s in (e, m, s)
  end.

(** [switchToBranch] of the second copy. *)
Definition switchToBranch2 (branchName : string) (m : Model) (s : Sys)
  : error * Model * Sys :=
  let m := addLogEntry INFO ("Attempting to switch to branch: " +:+ branchName) m in
  match GetCurrentBranch (fst s) with
  | (_, Some e) =>
      (Some ("failed to get current branch: " +:+ e),
       addLogEntry ERROR ("Failed to get current branch: " +:+ e) m, s)
  | (currentBranch, None) =>
      if String.eqb (cleanBranchName branchName) currentBranch then
        (Some ("already on branch '" +:+ currentBranch +:+ "'"),
         addLogEntry INFO ("Already on branch " +:+ currentBranch +:+ ", no switch needed") m,
         s)
      else
        let m := addLogEntry DEBUG "Checking for uncommitted changes..." m in
        match HasUncommittedChanges (fst s) with
        | (_, Some e) =>
            (Some ("failed to check for uncommitted changes: " +:+ e),
             addLogEntry ERROR ("Failed to check for uncommitted changes: " +:+ e) m, s)
        | (hasChanges, None) =>
            if hasChanges then
              let m := addLogEntry INFO "Found uncommitted changes, showing commit modal" m in
              (None, Show branchName (fst s) m, s)
            else
              let m := addLogEntry DEBUG "No uncommitted changes found, switching directly" m in
              let '(e, s) := SwitchToBranch branchName s in
              match e with
              | Some msg =>
                  (e, addLogEntry ERROR ("Failed to switch to branch " +:+ branchName
                                         +:+ ": " +:+ msg) m, s)
              | None =>
                  (None, addLogEntry SUCCESS ("Successfully switched to branch: "
                                              +:+ branchName) m, s)
              end
        end
  end.

Definition switchToBranch (copy : Copy) : string -> Model -> Sys -> error * Model * Sys :=
  match copy with
  | First => switchToBranch1
  | Second => switchToBranch2
  end.

End Workflow.

(** ** A concrete environment for examples *)
Module Demo.

(** [strings.ToLower] on ASCII letters. *)
Definition lowerByte (c : ascii) : ascii :=
  let n := nat_of_ascii c in
  if (65 <=? n)%nat && (n <=? 90)%nat then ascii_of_nat (n + 32) else c.

Fixpoint asciiLower (s : string) : string :=
  match s with
  | EmptyString => EmptyString
  | String c s' => String (lowerByte c) (asciiLower s')
  end.

(** [time.Parse] on the dates of the examples, in seconds.  A ten-digit
    Unix time does not parse under the layout of [parseTimestamp]: its first
    two digits are read as a month. *)
Definition dates : list (string * Time) :=
  [ ("2024-05-01 10:00:00 +0000", 1714557600%Z);
    ("2024-05-02 10:00:00 +0000", 1714644000%Z);
    ("2024-05-03 10:00:00 +0000", 1714730400%Z);
    ("2024-05-04 10:00:00 +0000", 1714816800%Z) ].

Definition parse (layout value : string) : option Time :=
  if String.eqb layout "2006-01-02 15:04:05 -0700"
  then snd <$> List.find (fun p => String.eqb (fst p) value) dates
  else None.

Definition ok (out : string) : Output := mkOutput out None.
Definition failed : Output := mkOutput "" (Some "exit status 1").

Definition lines (ls : list string) : string :=
  fold_right (fun l acc => l +:+ GoStrings.nl +:+ acc) "" ls.

(** A process runner that answers from a table and fails otherwise. *)
Definition scripted (answers : list (list string * Output)) (args : list string) : Output :=
  match List.find (fun p => bool_decide (fst p = args)) answers with
  | Some p => snd p
  | None => failed
  end.

Definition logOf (range : string) : list string := ["log"; "--format=%ae|%an"; range].

(** A repository with local branches main, feat-a, feat-b (checked out)
    and merged, and remote branches origin/main and origin/feat-a.
    feat-a has a commit by alice, feat-b only commits by bob, merged has no
    commit of its own, and the log of origin/feat-a cannot be read. *)
Definition answers : list (list string * Output) :=
  [ (["rev-parse"; "--git-dir"], ok ".git");
    (["config"; "user.email"], ok ("alice@example.com" +:+ GoStrings.nl));
    (reflogArgs,
     ok (lines ["HEAD@{0}|checkout: moving from main to feat-b|1714730000";
                "HEAD@{1}|checkout: moving from feat-a to main|1714650000"]));
    (["rev-parse"; "--abbrev-ref"; "HEAD"], ok ("feat-b" +:+ GoStrings.nl));
    (forEachRef "refs/heads/",
     ok (lines ["feat-b|2024-05-04 10:00:00 +0000|Tune the parser";
                "feat-a|2024-05-03 10:00:00 +0000|Add the parser";
                "main|2024-05-02 10:00:00 +0000|Merge pull request #1";
                "merged|2024-05-01 10:00:00 +0000|Fix typo"]));
    (forEachRef "refs/remotes/",
     ok (lines ["origin/feat-a|2024-05-03 10:00:00 +0000|Add the parser";
                "origin/main|2024-05-02 10:00:00 +0000|Merge pull request #1"]));
    (["merge-base"; "main"; "feat-a"], ok ("1a2b3c" +:+ GoStrings.nl));
    (["merge-base"; "main"; "feat-b"], ok ("1a2b3c" +:+ GoStrings.nl));
    (["merge-base"; "main"; "merged"], ok ("4d5e6f" +:+ GoStrings.nl));
    (["merge-base"; "main"; "origin/feat-a"], ok ("1a2b3c" +:+ GoStrings.nl));
    (logOf "1a2b3c..feat-a", ok (lines ["alice@example.com|Alice"; "bob@example.com|Bob"]));
    (logOf "1a2b3c..feat-b", ok (lines ["bob@example.com|Bob"]));
    (logOf "4d5e6f..merged", ok "");
    (["diff"; "--cached"; "--quiet"], ok "");
    (["diff"; "--quiet"], ok "") ].

Definition clock (n : nat) : Time := (1714900000 + Z.of_nat n)%Z.

Definition repo : Repo := mkRepo (scripted answers) clock.

(** The same repository with no user identity configured. *)
Definition anonymous : Repo :=
  mkRepo (scripted (List.filter
                      (fun p => negb (bool_decide (fst p = ["config"; "user.email"])))
                      answers)) clock.

(** Thirteen local branches on one commit, the last of them checked out. *)
Definition thirteenNames : list string :=
  ["b01"; "b02"; "b03"; "b04"; "b05"; "b06"; "b07"; "b08"; "b09"; "b10"; "b11"; "b12";
   "work"].

Definition thirteen : Repo :=
  mkRepo (scripted
            [ (["rev-parse"; "--git-dir"], ok ".git");
              (reflogArgs, ok "");
              (["rev-parse"; "--abbrev-ref"; "HEAD"], ok ("work" +:+ GoStrings.nl));
              (forEachRef "refs/heads/",
               ok (lines (map (fun n => n +:+ "|2024-05-01 10:00:00 +0000|Initial commit")
                              thirteenNames))) ])
         clock.

(** [sort.Slice] as the Go library implements it. *)
Definition goSlice (less : Branch -> Branch -> bool) (data : list Branch) : list Branch :=
  GoSort.Slice less data.

(** The listings of [repo], and some of their entries. *)
Definition listingOf (includeRemote : bool) (r : Repo) : list Branch :=
  match enumerate parse includeRemote r with
  | Ok all => all
  | _ => []
  end.

Definition localBranches : list Branch := Eval vm_compute in listingOf false repo.
Definition allBranches : list Branch := Eval vm_compute in listingOf true repo.

Definition featB : Branch := mkBranch "feat-b" 1714816800%Z "Tune the parser" 0%Z false "".
Definition merged : Branch := mkBranch "merged" 1714557600%Z "Fix typo" 0%Z false "".
Definition remoteFeatA : Branch :=
  mkBranch "feat-a (remote)" 1714730400%Z "Add the parser" 0%Z true "".
Definition remoteMain : Branch :=
  mkBranch "main (remote)" 1714644000%Z "Merge pull request #1" 0%Z true "".

(** What the resolver returns for [repo] with remote branches and no author
    filter, and the slice before and after the sort for [thirteen]. *)
Definition resolved : list Branch :=
  Eval vm_compute in
    match GetRecentBranches parse asciiLower goSlice Second 10 true ["all"] repo with
    | Ok l => l
    | _ => []
    end.

Definition thirteenBefore : list Branch :=
  Eval vm_compute in stamped parse asciiLower First thirteen ["all"] "" (listingOf false thirteen).

Definition thirteenAfter : list Branch :=
  Eval vm_compute in
    match GetRecentBranches parse asciiLower goSlice First 20 false ["all"] thirteen with
    | Ok l => l
    | _ => []
    end.

(** A mutating command succeeds and leaves the answers to queries as
    they are. *)
Definition obey (args : list string) (r : Repo) : Output * Repo := (ok "", r).

(** A user interface without state: nothing is logged, no dialog opens. *)
Definition silent (level : LogLevel) (msg : string) (m : unit) : unit := m.
Definition noDialog (target : string) (r : Repo) (m : unit) : unit := m.

End Demo.

(** ** Notions used in the statements *)

(** What the documentation of [sort.Slice] promises for the comparison the
    resolver passes: the result is a rearrangement of the slice in which no
    later element is used more recently than an earlier one.  The order of
    equal elements is left open. *)
Definition SliceSpec
    (sort_Slice : (Branch -> Branch -> bool) -> list Branch -> list Branch) : Prop :=
  forall data : list Branch,
    Permutation (sort_Slice byLastUsed data) data
    /\ forall (i j : nat) (x y : Branch),
         (i < j)%nat ->
         sort_Slice byLastUsed data !! i = Some x ->
         sort_Slice byLastUsed data !! j = Some y ->
         (LastUsed y <= LastUsed x)%Z.

(** The user name handed to the filter. *)
Definition currentUserFor (authors : list string) (r : Repo) : string :=
  if wantsMine authors then fst (GetCurrentUser r) else "".

(** The four queries whose failure [GetRecentBranches] returns as an error. *)
Definition Resolvable (authors : list string) (r : Repo) : Prop :=
  IsInRepository r = None
  /\ (wantsMine authors = true -> snd (GetCurrentUser r) = None)
  /\ err (git r reflogArgs) = None
  /\ err (git r (forEachRef "refs/heads/")) = None.

(** Stability of a sort: among the elements with one and the same
    [LastUsed], the order of [before] is the order of [after]. *)
Definition tiesKeepOrder (before after : list Branch) : Prop :=
  forall t : Time,
    List.filter (fun b => (LastUsed b =? t)%Z) after
    = List.filter (fun b => (LastUsed b =? t)%Z) before.

(** The merge-base lookup or the log of unique commits fails for a branch. *)
Definition LookupFails (r : Repo) (branch : Branch) : Prop :=
  snd (findMergeBase r (gitBranchName branch)) <> None
  \/ err (uniqueLog r (fst (findMergeBase r (gitBranchName branch))) branch) <> None.

(** The slice after [sort.Slice], before the truncation. *)
Definition ranked (time_Parse : string -> string -> option Time) (ToLower : string -> string)
    (sort_Slice : (Branch -> Branch -> bool) -> list Branch -> list Branch)
    (copy : Copy) (r : Repo) (authors : list string) (all : list Branch) : list Branch :=
  sort_Slice byLastUsed
    (stamped time_Parse ToLower copy r authors (currentUserFor authors r) all).

(** ** Notions for the sorting routines *)
Section SortNotions.

Context {A : Type} `{!Inhabited A} (key : A -> Z).

Definition keyAt (data : list A) (i : nat) : Z := key (data !!! i).

(** [data] is in order on the index range [a, b). *)
Definition sortedSeg (data : list A) (a b : nat) : Prop :=
forall i j : nat, (a <= i)%nat -> (i <= j)%nat -> (j < b)%nat ->
  (keyAt data i <= keyAt data j)%Z.

(** The element before the range [a, b) is a lower bound of the range: what
    [pdqsort] knows of a range that does not start the slice. *)
Definition guardedSeg (data : list A) (a b : nat) : Prop :=
(0 < a)%nat -> forall k : nat, (a <= k < b)%nat -> (keyAt data (a - 1) <= keyAt data k)%Z.

(** [d'] comes from [d] by moving elements around inside [a, b). *)
Record Rearranged (a b : nat) (d d' : list A) : Prop := mkRearranged {
re_length : length d' = length d;
re_outside : forall k : nat, (k < a)%nat \/ (b <= k)%nat -> d' !!! k = d !!! k;
re_perm : Permutation d' d;
re_inside : forall P : A -> Prop,
  (forall k : nat, (a <= k < b)%nat -> P (d !!! k)) ->
  forall k : nat, (a <= k < b)%nat -> P (d' !!! k)
}.

End SortNotions.

Arguments re_length {A _ a b d d'} _.
Arguments re_outside {A _ a b d d'} _.
Arguments re_perm {A _ a b d d'} _.
Arguments re_inside {A _ a b d d'} _.

(** * Properties *)

Example Split_lines :
  GoStrings.Split ("a" +:+ GoStrings.nl +:+ "" +:+ GoStrings.nl +:+ "b") GoStrings.nl
  = ["a"; ""; "b"].
Proof. vm_compute. reflexivity. Qed.

Example Split_empty : GoStrings.Split "" GoStrings.nl = [""].
Proof. reflexivity. Qed.

Example SplitN_three : GoStrings.SplitN "x|y|z|w" "|" 3 = ["x"; "y"; "z|w"].
Proof. vm_compute. reflexivity. Qed.

Example Split_to :
  GoStrings.Split "checkout: moving from a to b" " to " = ["checkout: moving from a"; "b"].
Proof. vm_compute. reflexivity. Qed.

Example TrimSpace_ex : GoStrings.TrimSpace ("  a b " +:+ GoStrings.nl) = "a b".
Proof. vm_compute. reflexivity. Qed.

Example TrimSuffix_remote : GoStrings.TrimSuffix "main (remote)" " (remote)" = "main".
Proof. vm_compute. reflexivity. Qed.

(** [strings.Split(subject, " to ")[1]] in the loop over the reflog is in
    range: a string that contains a non-empty separator splits into two
    pieces at least. *)
Lemma genSplit_pieces (fuel : nat) (s sep : string) (n : nat) :
  exists x rest, GoStrings.genSplit fuel s sep n = x :: rest.
Proof.
  destruct fuel as [|fuel], n as [|n]; simpl; eauto.
  destruct (GoStrings.Index s sep); eauto.
Qed.

Lemma Split_Contains (s sep : string) :
  sep <> "" -> GoStrings.Contains s sep = true ->
  exists x y rest, GoStrings.Split s sep = x :: y :: rest.
Proof.
  intros Hsep Hc. unfold GoStrings.Contains in Hc.
  apply bool_decide_eq_true in Hc as [m Hm]. unfold GoStrings.Split.
  destruct s as [|c s].
  - destruct sep as [|c' sep]; [contradiction|]. simpl in Hm. discriminate Hm.
  - cbn [String.length GoStrings.genSplit]. rewrite Hm.
    destruct (genSplit_pieces (String.length s)
                (GoStrings.drop (m + String.length sep) (String c s)) sep (String.length s))
      as (y & rest & ->).
    eauto.
Qed.


(** ** Facts about the sorting routines

    The comparison is the one induced by an integer key, as in the resolver
    ([LastUsed], descending). *)
Section SortFacts.

Context {A : Type} `{!Inhabited A} (less : A -> A -> bool) (key : A -> Z).
Hypothesis less_key : forall x y, less x y = (key x <? key y)%Z.

Abbreviation Less := (GoSort.Less less).
Abbreviation Swap := (@GoSort.Swap A).

Abbreviation kAt := (keyAt key).
Abbreviation ordered := (sortedSeg key).
Abbreviation guarded := (guardedSeg key).

Lemma Rearranged_refl (a b : nat) (d : list A) : Rearranged a b d d.
Proof. split; auto. Qed.

Lemma Rearranged_trans (a b : nat) (d1 d2 d3 : list A) :
  Rearranged a b d1 d2 -> Rearranged a b d2 d3 -> Rearranged a b d1 d3.
Proof.
  intros [L1 O1 P1 I1] [L2 O2 P2 I2]. split.
  - congruence.
  - intros k Hk. rewrite O2, O1; auto.
  - etransitivity; eauto.
  - intros P HP. apply I2, I1, HP.
Qed.

Lemma Rearranged_mono (a b a' b' : nat) (d d' : list A) :
  (a' <= a)%nat -> (b <= b')%nat -> Rearranged a b d d' -> Rearranged a' b' d d'.
Proof.
  intros Ha Hb [L O P I]. split; auto.
  - intros k Hk. apply O. lia.
  - intros Q HQ k Hk.
    destruct (decide (a <= k < b)%nat) as [Hin|Hout].
    + apply I; [|exact Hin]. intros k' Hk'. apply HQ. lia.
    + rewrite O by lia. apply HQ. exact Hk.
Qed.

Lemma Swap_eq (data : list A) (i j : nat) :
  (i < length data)%nat -> (j < length data)%nat ->
  Swap data i j = <[i := data !!! j]> (<[j := data !!! i]> data).
Proof.
  intros Hi Hj. unfold GoSort.Swap.
  rewrite (list_lookup_lookup_total_lt data i), (list_lookup_lookup_total_lt data j) by lia.
  reflexivity.
Qed.

Lemma Swap_length (data : list A) (i j : nat) : length (Swap data i j) = length data.
Proof.
  unfold GoSort.Swap. destruct (data !! i), (data !! j); auto.
  rewrite !length_insert. reflexivity.
Qed.

Lemma Swap_total (data : list A) (i j k : nat) :
  (i < length data)%nat -> (j < length data)%nat ->
  Swap data i j !!! k
  = if decide (k = i) then data !!! j
    else if decide (k = j) then data !!! i else data !!! k.
Proof.
  intros Hi Hj. rewrite Swap_eq by lia.
  rewrite !list_lookup_total_insert, length_insert.
  repeat case_decide; try reflexivity; try lia.
Qed.

Lemma keyAt_Swap (data : list A) (i j k : nat) :
  (i < length data)%nat -> (j < length data)%nat ->
  kAt (Swap data i j) k
  = if decide (k = i) then kAt data j
    else if decide (k = j) then kAt data i else kAt data k.
Proof.
  intros Hi Hj. unfold keyAt. rewrite Swap_total by lia.
  repeat case_decide; reflexivity.
Qed.

Lemma Less_eq (data : list A) (i j : nat) :
  (i < length data)%nat -> (j < length data)%nat ->
  Less data i j = (kAt data i <? kAt data j)%Z.
Proof.
  intros Hi Hj. unfold GoSort.Less, keyAt.
  rewrite (list_lookup_lookup_total_lt data i), (list_lookup_lookup_total_lt data j) by lia.
  apply less_key.
Qed.

Lemma Rearranged_Swap (a b : nat) (data : list A) (i j : nat) :
  (a <= i < b)%nat -> (a <= j < b)%nat -> (b <= length data)%nat ->
  Rearranged a b data (Swap data i j).
Proof.
  intros Hi Hj Hb. split.
  - apply Swap_length.
  - intros k Hk. rewrite Swap_total by lia. repeat case_decide; try reflexivity; lia.
  - rewrite Swap_eq by lia.
    apply Permutation_insert_swap; apply list_lookup_lookup_total_lt; lia.
  - intros P HP k Hk. rewrite Swap_total by lia.
    repeat case_decide; apply HP; lia.
Qed.

(** *** Insertion sort *)

Lemma insertDown_Rearranged (data : list A) (a j b : nat) :
  (a <= j < b)%nat -> (b <= length data)%nat ->
  Rearranged a b data (GoSort.insertDown less data a j).
Proof.
  revert data. induction j as [|j' IH]; intros data Hj Hb; simpl.
  - apply Rearranged_refl.
  - destruct ((a <? S j')%nat && Less data (S j') j') eqn:Hc.
    + apply andb_true_iff in Hc as [Ha _]. apply Nat.ltb_lt in Ha.
      eapply Rearranged_trans.
      * apply (Rearranged_Swap a b data (S j') j'); lia.
      * apply IH; [lia|]. rewrite Swap_length. exact Hb.
    + apply Rearranged_refl.
Qed.

(** The element at [j] sinks into the ordered range below it. *)
Lemma insertDown_sorted (data : list A) (a j i : nat) :
  (a <= j)%nat -> (j <= i)%nat -> (i < length data)%nat ->
  (forall p q : nat, (a <= p)%nat -> (p <= q)%nat -> (q <= i)%nat ->
                     p <> j -> q <> j -> (kAt data p <= kAt data q)%Z) ->
  (forall q : nat, (j < q)%nat -> (q <= i)%nat -> (kAt data j <= kAt data q)%Z) ->
  ordered (GoSort.insertDown less data a j) a (S i).
Proof.
  revert data. induction j as [|j' IH]; intros data Ha Hji Hi Hrest Habove; simpl.
  - intros p q Hp Hpq Hq.
    destruct (decide (p = 0%nat)) as [->|Hp0].
    + destruct (decide (q = 0%nat)) as [->|Hq0]; [lia|]. apply Habove; lia.
    + apply Hrest; lia.
  - destruct ((a <? S j')%nat && Less data (S j') j') eqn:Hc.
    + apply andb_true_iff in Hc as [Hlt Hless]. apply Nat.ltb_lt in Hlt.
      rewrite Less_eq in Hless by lia. apply Z.ltb_lt in Hless.
      apply IH; try lia.
      * rewrite Swap_length. lia.
      * intros p q Hp Hpq Hq Hpj Hqj. rewrite !keyAt_Swap by lia.
        repeat case_decide; subst; try lia; try (apply Hrest; lia).
      * intros q Hq Hqi. rewrite !keyAt_Swap by lia.
        repeat case_decide; subst; try lia.
        specialize (Habove q). lia.
    + intros p q Hp Hpq Hq.
      assert (Hstop : a = S j' \/ (kAt data j' <= kAt data (S j'))%Z).
      { apply andb_false_iff in Hc as [Hc|Hc].
        - apply Nat.ltb_ge in Hc. left. lia.
        - destruct (decide (a = S j')); [left; assumption|right].
          rewrite Less_eq in Hc by lia. apply Z.ltb_ge in Hc. exact Hc. }
      destruct (decide (p = q)) as [->|Hne]; [lia|].
      destruct (decide (p = S j')) as [->|Hpj]; [apply Habove; lia|].
      destruct (decide (q = S j')) as [->|Hqj]; [|apply Hrest; lia].
      destruct Hstop as [->|Hle]; [lia|].
      assert (kAt data p <= kAt data j')%Z by (apply Hrest; lia). lia.
Qed.

Lemma insertFrom_Rearranged (rounds : nat) (data : list A) (a i b : nat) :
  (a < i)%nat -> (b <= length data)%nat ->
  Rearranged a b data (GoSort.insertFrom less rounds data a i b).
Proof.
  revert data i. induction rounds as [|n IH]; intros data i Hi Hb; simpl.
  - apply Rearranged_refl.
  - destruct (i <? b)%nat eqn:Hlt; [|apply Rearranged_refl].
    apply Nat.ltb_lt in Hlt.
    assert (Hd : Rearranged a b data (GoSort.insertDown less data a i))
  by (apply insertDown_Rearranged; lia).
    eapply Rearranged_trans; [exact Hd|].
    apply IH; [lia|]. rewrite (re_length Hd). exact Hb.
Qed.

Lemma insertFrom_sorted (rounds : nat) (data : list A) (a i b : nat) :
  (a < i)%nat -> (i <= b)%nat -> (b <= length data)%nat -> (b <= i + rounds)%nat ->
  ordered data a i ->
  ordered (GoSort.insertFrom less rounds data a i b) a b.
Proof.
  revert data i. induction rounds as [|n IH]; intros data i Hai Hib Hb Hr Hs; simpl.
  - assert (i = b) as -> by lia. exact Hs.
  - destruct (i <? b)%nat eqn:Hlt.
    + apply Nat.ltb_lt in Hlt. apply IH; try lia.
      * assert (Hd : Rearranged a b data (GoSort.insertDown less data a i))
    by (apply insertDown_Rearranged; lia).
  rewrite (re_length Hd). exact Hb.
      * apply insertDown_sorted; try lia.
        intros p q Hp Hpq Hq Hpi Hqi. apply Hs; lia.
    + apply Nat.ltb_ge in Hlt. assert (i = b) as -> by lia. exact Hs.
Qed.

Lemma insertionSort_Rearranged (data : list A) (a b : nat) :
  (b <= length data)%nat -> Rearranged a b data (GoSort.insertionSort less data a b).
Proof. intros Hb. apply insertFrom_Rearranged; [lia|exact Hb]. Qed.

Lemma insertionSort_sorted (data : list A) (a b : nat) :
  (b <= length data)%nat -> ordered (GoSort.insertionSort less data a b) a b.
Proof.
  intros Hb. unfold GoSort.insertionSort.
  destruct (decide (a < b)%nat) as [Hab|Hab].
  - apply insertFrom_sorted; try lia.
    intros i j Hi Hij Hj. assert (i = j) as -> by lia. lia.
  - intros i j Hi Hij Hj. lia.
Qed.

(** *** Bounds that survive a rearrangement *)

Lemma Rearranged_keyAt_outside (a b : nat) (d d' : list A) (k : nat) :
  Rearranged a b d d' -> (k < a)%nat \/ (b <= k)%nat -> kAt d' k = kAt d k.
Proof. intros H Hk. unfold keyAt. rewrite (re_outside H) by exact Hk. reflexivity. Qed.

Lemma Rearranged_keys (a b : nat) (d d' : list A) (Q : Z -> Prop) :
  Rearranged a b d d' ->
  (forall k : nat, (a <= k < b)%nat -> Q (kAt d k)) ->
  forall k : nat, (a <= k < b)%nat -> Q (kAt d' k).
Proof. intros H HQ k Hk. exact (re_inside H (fun x => Q (key x)) HQ k Hk). Qed.

Lemma Rearranged_sub (a b a' b' : nat) (d d' : list A) (Q : Z -> Prop) :
  Rearranged a' b' d d' -> (a <= a')%nat -> (b' <= b)%nat ->
  (forall k : nat, (a <= k < b)%nat -> Q (kAt d k)) ->
  forall k : nat, (a <= k < b)%nat -> Q (kAt d' k).
Proof.
  intros H Ha Hb HQ. eapply Rearranged_keys; [|exact HQ].
  eapply Rearranged_mono; [| |exact H]; lia.
Qed.

Lemma sortedSeg_outside (a b a' b' : nat) (d d' : list A) :
  Rearranged a' b' d d' -> (b <= a')%nat \/ (b' <= a)%nat ->
  ordered d a b -> ordered d' a b.
Proof.
  intros H Hdis Hs i j Hi Hij Hj.
  rewrite !(Rearranged_keyAt_outside a' b' d d') by (assumption || lia). apply Hs; lia.
Qed.

Lemma sortedSeg_adjacent (d : list A) (a b : nat) :
  (forall i : nat, (a < i < b)%nat -> (kAt d (i - 1) <= kAt d i)%Z) ->
  ordered d a b.
Proof.
  intros Hadj i j Hi Hij Hj. induction j as [|j IH]; [assert (i = 0%nat) as -> by lia; lia|].
  destruct (decide (i = S j)) as [->|Hne]; [lia|].
  specialize (IH ltac:(lia) ltac:(lia)).
  specialize (Hadj (S j) ltac:(lia)). replace (S j - 1)%nat with j in Hadj by lia. lia.
Qed.

(** *** The two scans of the partitioning loops *)

Lemma scanUp_spec (rounds : nat) (cond : nat -> bool) (i j : nat) :
  (j + 2 <= i + rounds)%nat ->
  let i' := GoSort.scanUp rounds cond i j in
  (i <= i')%nat /\ (i' <= Nat.max i (j + 1))%nat
  /\ (forall k : nat, (i <= k < i')%nat -> cond k = true)
  /\ ((j < i')%nat \/ cond i' = false).
Proof.
  revert i. induction rounds as [|n IH]; intros i Hr; simpl.
  - repeat split; lia.
  - destruct ((i <=? j)%nat && cond i) eqn:Hc.
    + apply andb_true_iff in Hc as [Hle Hci]. apply Nat.leb_le in Hle.
      destruct (IH (i + 1)%nat ltac:(lia)) as (H1 & H2 & H3 & H4).
      repeat split; try lia; [|exact H4].
      intros k Hk. destruct (decide (k = i)) as [->|Hne]; [exact Hci|apply H3; lia].
    + repeat split; try lia.
      apply andb_false_iff in Hc as [Hc|Hc]; [left; apply Nat.leb_gt in Hc; lia|right; exact Hc].
Qed.

Lemma scanDown_spec (rounds : nat) (cond : nat -> bool) (i j : nat) :
  (1 <= i)%nat -> (j + 2 <= i + rounds)%nat ->
  let j' := GoSort.scanDown rounds cond i j in
  (j' <= j)%nat /\ (Nat.min j (i - 1) <= j')%nat
  /\ (forall k : nat, (j' < k <= j)%nat -> cond k = true)
  /\ ((j' < i)%nat \/ cond j' = false).
Proof.
  intros Hi. revert j. induction rounds as [|n IH]; intros j Hr; simpl.
  - repeat split; lia.
  - destruct ((i <=? j)%nat && cond j) eqn:Hc.
    + apply andb_true_iff in Hc as [Hle Hcj]. apply Nat.leb_le in Hle.
      destruct (IH (j - 1)%nat ltac:(lia)) as (H1 & H2 & H3 & H4).
      repeat split; try lia; [|exact H4].
      intros k Hk. destruct (decide (k = j)) as [->|Hne]; [exact Hcj|apply H3; lia].
    + repeat split; try lia.
      apply andb_false_iff in Hc as [Hc|Hc]; [left; apply Nat.leb_gt in Hc; lia|right; exact Hc].
Qed.

(** *** Partitioning around the pivot *)

Ltac swap_keys := rewrite ?keyAt_Swap by lia; repeat case_decide; subst; try lia.

Lemma partitionLoop_S (n : nat) (d : list A) (a i j : nat) :
  GoSort.partitionLoop less (S n) d a i j
  = let i' := GoSort.scanUp (S j) (fun i => Less d i a) i j in
    let j' := GoSort.scanDown (S j) (fun j => negb (Less d j a)) i' j in
    if (j' <? i')%nat then (d, j')
    else GoSort.partitionLoop less n (Swap d i' j') a (i' + 1) (j' - 1).
Proof. reflexivity. Qed.

Lemma partitionLoop_spec (a b : nat) (p : Z) (rounds : nat) (d : list A) (i j : nat) :
  (b <= length d)%nat -> (a + 1 <= i)%nat -> (i <= j + 1)%nat -> (j + 1 <= b)%nat ->
  (j + 1 <= i + rounds)%nat ->
  (forall k : nat, (a < k < i)%nat -> (kAt d k < p)%Z) ->
  (forall k : nat, (j < k < b)%nat -> (p <= kAt d k)%Z) ->
  kAt d a = p ->
  Rearranged a b d (fst (GoSort.partitionLoop less rounds d a i j))
  /\ (a <= snd (GoSort.partitionLoop less rounds d a i j) < b)%nat
  /\ kAt (fst (GoSort.partitionLoop less rounds d a i j)) a = p
  /\ (forall k : nat, (a < k <= snd (GoSort.partitionLoop less rounds d a i j))%nat ->
                      (kAt (fst (GoSort.partitionLoop less rounds d a i j)) k < p)%Z)
  /\ (forall k : nat, (snd (GoSort.partitionLoop less rounds d a i j) < k < b)%nat ->
                      (p <= kAt (fst (GoSort.partitionLoop less rounds d a i j)) k)%Z).
Proof.
  revert d i j. induction rounds as [|n IH]; intros d i j Hlen Hi Hij Hj Hr Hlow Hhigh Hp.
  - simpl. split; [apply Rearranged_refl|]. repeat split; try lia; auto.
    intros k Hk. apply Hlow. lia.
  - rewrite partitionLoop_S. cbv zeta.
    destruct (scanUp_spec (S j) (fun i => Less d i a) i j ltac:(lia)) as (U1 & U2 & U3 & U4).
    set (i' := GoSort.scanUp (S j) (fun i => Less d i a) i j) in *. clearbody i'.
    destruct (scanDown_spec (S j) (fun j => negb (Less d j a)) i' j ltac:(lia) ltac:(lia))
      as (D1 & D2 & D3 & D4).
    set (j' := GoSort.scanDown (S j) (fun j => negb (Less d j a)) i' j) in *. clearbody j'.
    assert (Hlow' : forall k : nat, (a < k < i')%nat -> (kAt d k < p)%Z).
    { intros k Hk. destruct (decide (k < i)%nat); [apply Hlow; lia|].
      specialize (U3 k ltac:(lia)). simpl in U3. rewrite Less_eq in U3 by lia.
      apply Z.ltb_lt in U3. lia. }
    assert (Hhigh' : forall k : nat, (j' < k < b)%nat -> (p <= kAt d k)%Z).
    { intros k Hk. destruct (decide (j < k)%nat); [apply Hhigh; lia|].
      specialize (D3 k ltac:(lia)). simpl in D3. rewrite Less_eq in D3 by lia.
      apply negb_true_iff, Z.ltb_ge in D3. lia. }
    destruct (j' <? i')%nat eqn:Hcross.
    + apply Nat.ltb_lt in Hcross. cbn [fst snd].
      split; [apply Rearranged_refl|]. repeat split; try lia; auto.
      intros k Hk. apply Hlow'. lia.
    + apply Nat.ltb_ge in Hcross.
      assert (Hi' : (p <= kAt d i')%Z).
      { destruct U4 as [U4|U4]; [lia|]. simpl in U4. rewrite Less_eq in U4 by lia.
        apply Z.ltb_ge in U4. lia. }
      assert (Hj' : (kAt d j' < p)%Z).
      { destruct D4 as [D4|D4]; [lia|]. simpl in D4. rewrite Less_eq in D4 by lia.
        apply negb_false_iff, Z.ltb_lt in D4. lia. }
      assert (Hlt : (i' < j')%nat).
      { destruct (decide (i' = j')) as [Heq|Hne]; [rewrite Heq in Hi'; lia|lia]. }
      destruct (IH (Swap d i' j') (i' + 1)%nat (j' - 1)%nat) as (R & B & P & L & H);
        try (rewrite ?Swap_length; lia).
      * intros k Hk. swap_keys. apply Hlow'. lia.
      * intros k Hk. swap_keys. apply Hhigh'. lia.
      * swap_keys.
      * split; [|repeat split; try assumption; lia].
        eapply Rearranged_trans; [|exact R]. apply Rearranged_Swap; lia.
Qed.

Lemma partition_spec (d : list A) (a b pivot : nat) :
  (a <= pivot < b)%nat -> (b <= length d)%nat ->
  let '(d', mid, _) := GoSort.partition less d a b pivot in
  Rearranged a b d d'
  /\ (a <= mid < b)%nat
  /\ kAt d' mid = kAt d pivot
  /\ (forall k : nat, (a <= k < mid)%nat -> (kAt d' k < kAt d pivot)%Z)
  /\ (forall k : nat, (mid < k < b)%nat -> (kAt d pivot <= kAt d' k)%Z).
Proof.
  intros Hpivot Hlen. unfold GoSort.partition.
  set (p := kAt d pivot).
  set (d1 := Swap d a pivot).
  assert (R1 : Rearranged a b d d1) by (apply Rearranged_Swap; lia).
  assert (L1 : length d1 = length d) by apply Swap_length.
  assert (P1 : kAt d1 a = p) by (unfold d1, p; swap_keys).
  clearbody d1 p.
  destruct (scanUp_spec b (fun i => Less d1 i a) (a + 1) (b - 1) ltac:(lia))
    as (U1 & U2 & U3 & U4).
  set (i := GoSort.scanUp b (fun i => Less d1 i a) (a + 1) (b - 1)) in *. clearbody i.
  destruct (scanDown_spec b (fun j => negb (Less d1 j a)) i (b - 1) ltac:(lia) ltac:(lia))
    as (D1 & D2 & D3 & D4).
  set (j := GoSort.scanDown b (fun j => negb (Less d1 j a)) i (b - 1)) in *. clearbody j.
  assert (Hlow : forall k : nat, (a < k < i)%nat -> (kAt d1 k < p)%Z).
  { intros k Hk. specialize (U3 k ltac:(lia)). simpl in U3. rewrite Less_eq in U3 by lia.
    apply Z.ltb_lt in U3. lia. }
  assert (Hhigh : forall k : nat, (j < k < b)%nat -> (p <= kAt d1 k)%Z).
  { intros k Hk. specialize (D3 k ltac:(lia)). simpl in D3. rewrite Less_eq in D3 by lia.
    apply negb_true_iff, Z.ltb_ge in D3. lia. }
  assert (Hfinal : forall (d2 : list A) (m : nat),
             Rearranged a b d d2 -> (a <= m < b)%nat -> kAt d2 a = p ->
             (forall k : nat, (a < k <= m)%nat -> (kAt d2 k < p)%Z) ->
             (forall k : nat, (m < k < b)%nat -> (p <= kAt d2 k)%Z) ->
             Rearranged a b d (Swap d2 m a)
             /\ (a <= m < b)%nat
             /\ kAt (Swap d2 m a) m = p
             /\ (forall k : nat, (a <= k < m)%nat -> (kAt (Swap d2 m a) k < p)%Z)
             /\ (forall k : nat, (m < k < b)%nat -> (p <= kAt (Swap d2 m a) k)%Z)).
  { intros d2 m R2 Hm P2 Lo Hi. pose proof (re_length R2) as L2.
    split; [eapply Rearranged_trans; [exact R2|apply Rearranged_Swap; lia]|].
    split; [lia|]. split; [swap_keys|]. split.
    - intros k Hk. swap_keys; [apply Lo; lia|apply Lo; lia].
    - intros k Hk. swap_keys. apply Hi. lia. }
  destruct (j <? i)%nat eqn:Hcross.
  - apply Nat.ltb_lt in Hcross. apply Hfinal; auto; try lia.
    intros k Hk. apply Hlow. lia.
  - apply Nat.ltb_ge in Hcross.
    assert (Hi' : (p <= kAt d1 i)%Z).
    { destruct U4 as [U4|U4]; [lia|]. simpl in U4. rewrite Less_eq in U4 by lia.
      apply Z.ltb_ge in U4. lia. }
    assert (Hj' : (kAt d1 j < p)%Z).
    { destruct D4 as [D4|D4]; [lia|]. simpl in D4. rewrite Less_eq in D4 by lia.
      apply negb_false_iff, Z.ltb_lt in D4. lia. }
    assert (Hlt : (i < j)%nat).
    { destruct (decide (i = j)) as [Heq|Hne]; [rewrite Heq in Hi'; lia|lia]. }
    destruct (partitionLoop_spec a b p (b - a) (Swap d1 i j) (i + 1) (j - 1))
      as (R & B & P & L & H); try (rewrite ?Swap_length; lia).
    + intros k Hk. swap_keys. apply Hlow. lia.
    + intros k Hk. swap_keys. apply Hhigh. lia.
    + swap_keys.
    + destruct (GoSort.partitionLoop less (b - a) (Swap d1 i j) a (i + 1) (j - 1))
        as [d3 m]. simpl in *.
      apply Hfinal; auto.
      eapply Rearranged_trans; [exact R1|].
      eapply Rearranged_trans; [|exact R]. apply Rearranged_Swap; lia.
Qed.

Lemma partitionEqualLoop_S (n : nat) (d : list A) (a i j : nat) :
  GoSort.partitionEqualLoop less (S n) d a i j
  = let i' := GoSort.scanUp (S j) (fun i => negb (Less d a i)) i j in
    let j' := GoSort.scanDown (S j) (fun j => Less d a j) i' j in
    if (j' <? i')%nat then (d, i')
    else GoSort.partitionEqualLoop less n (Swap d i' j') a (i' + 1) (j' - 1).
Proof. reflexivity. Qed.

Lemma partitionEqualLoop_spec (a b : nat) (p : Z) (rounds : nat) (d : list A) (i j : nat) :
  (b <= length d)%nat -> (a + 1 <= i)%nat -> (i <= j + 1)%nat -> (j + 1 <= b)%nat ->
  (j + 1 <= i + rounds)%nat ->
  (forall k : nat, (a < k < i)%nat -> (kAt d k <= p)%Z) ->
  (forall k : nat, (j < k < b)%nat -> (p < kAt d k)%Z) ->
  kAt d a = p ->
  Rearranged a b d (fst (GoSort.partitionEqualLoop less rounds d a i j))
  /\ (a + 1 <= snd (GoSort.partitionEqualLoop less rounds d a i j) <= b)%nat
  /\ (forall k : nat, (a <= k < snd (GoSort.partitionEqualLoop less rounds d a i j))%nat ->
                      (kAt (fst (GoSort.partitionEqualLoop less rounds d a i j)) k <= p)%Z)
  /\ (forall k : nat, (snd (GoSort.partitionEqualLoop less rounds d a i j) <= k < b)%nat ->
                      (p < kAt (fst (GoSort.partitionEqualLoop less rounds d a i j)) k)%Z).
Proof.
  revert d i j. induction rounds as [|n IH]; intros d i j Hlen Hi Hij Hj Hr Hlow Hhigh Hp.
  - simpl. split; [apply Rearranged_refl|]. repeat split; try lia.
    + intros k Hk. destruct (decide (k = a)) as [->|Hne]; [lia|apply Hlow; lia].
    + intros k Hk. apply Hhigh. lia.
  - rewrite partitionEqualLoop_S. cbv zeta.
    destruct (scanUp_spec (S j) (fun i => negb (Less d a i)) i j ltac:(lia))
      as (U1 & U2 & U3 & U4).
    set (i' := GoSort.scanUp (S j) (fun i => negb (Less d a i)) i j) in *. clearbody i'.
    destruct (scanDown_spec (S j) (fun j => Less d a j) i' j ltac:(lia) ltac:(lia))
      as (D1 & D2 & D3 & D4).
    set (j' := GoSort.scanDown (S j) (fun j => Less d a j) i' j) in *. clearbody j'.
    assert (Hlow' : forall k : nat, (a < k < i')%nat -> (kAt d k <= p)%Z).
    { intros k Hk. destruct (decide (k < i)%nat); [apply Hlow; lia|].
      specialize (U3 k ltac:(lia)). simpl in U3. rewrite Less_eq in U3 by lia.
      apply negb_true_iff, Z.ltb_ge in U3. lia. }
    assert (Hhigh' : forall k : nat, (j' < k < b)%nat -> (p < kAt d k)%Z).
    { intros k Hk. destruct (decide (j < k)%nat); [apply Hhigh; lia|].
      specialize (D3 k ltac:(lia)). simpl in D3. rewrite Less_eq in D3 by lia.
      apply Z.ltb_lt in D3. lia. }
    destruct (j' <? i')%nat eqn:Hcross.
    + apply Nat.ltb_lt in Hcross. cbn [fst snd].
      split; [apply Rearranged_refl|]. repeat split; try lia.
      * intros k Hk. destruct (decide (k = a)) as [->|Hne]; [lia|apply Hlow'; lia].
      * intros k Hk. apply Hhigh'. lia.
    + apply Nat.ltb_ge in Hcross.
      assert (Hi' : (p < kAt d i')%Z).
      { destruct U4 as [U4|U4]; [lia|]. simpl in U4. rewrite Less_eq in U4 by lia.
        apply negb_false_iff, Z.ltb_lt in U4. lia. }
      assert (Hj' : (kAt d j' <= p)%Z).
      { destruct D4 as [D4|D4]; [lia|]. simpl in D4. rewrite Less_eq in D4 by lia.
        apply Z.ltb_ge in D4. lia. }
      assert (Hlt : (i' < j')%nat).
      { destruct (decide (i' = j')) as [Heq|Hne]; [rewrite Heq in Hi'; lia|lia]. }
      destruct (IH (Swap d i' j') (i' + 1)%nat (j' - 1)%nat) as (R & B & L & H);
        try (rewrite ?Swap_length; lia).
      * intros k Hk. swap_keys. apply Hlow'. lia.
      * intros k Hk. swap_keys. apply Hhigh'. lia.
      * swap_keys.
      * split; [|repeat split; try assumption; lia].
        eapply Rearranged_trans; [|exact R]. apply Rearranged_Swap; lia.
Qed.

Lemma partitionEqual_spec (d : list A) (a b pivot : nat) :
  (a <= pivot < b)%nat -> (b <= length d)%nat ->
  let '(d', mid) := GoSort.partitionEqual less d a b pivot in
  Rearranged a b d d'
  /\ (a + 1 <= mid <= b)%nat
  /\ (forall k : nat, (a <= k < mid)%nat -> (kAt d' k <= kAt d pivot)%Z)
  /\ (forall k : nat, (mid <= k < b)%nat -> (kAt d pivot < kAt d' k)%Z).
Proof.
  intros Hpivot Hlen. unfold GoSort.partitionEqual.
  set (p := kAt d pivot).
  set (d1 := Swap d a pivot).
  assert (R1 : Rearranged a b d d1) by (apply Rearranged_Swap; lia).
  assert (L1 : length d1 = length d) by apply Swap_length.
  assert (P1 : kAt d1 a = p) by (unfold d1, p; swap_keys).
  clearbody d1 p.
  destruct (partitionEqualLoop_spec a b p (b - a) d1 (a + 1) (b - 1)) as (R & B & L & H);
    try lia.
  destruct (GoSort.partitionEqualLoop less (b - a) d1 a (a + 1) (b - 1)) as [d2 mid].
  simpl in *. split; [eapply Rearranged_trans; eassumption|]. auto.
Qed.

(** *** Choosing the pivot, reversing, breaking patterns *)

Lemma median_among (d : list A) (x y z s : nat) :
  fst (GoSort.median less d x y z s) = x
  \/ fst (GoSort.median less d x y z s) = y
  \/ fst (GoSort.median less d x y z s) = z.
Proof.
  unfold GoSort.median, GoSort.order2.
  destruct (Less d y x); destruct (Less d z _); destruct (Less d _ _); simpl; auto.
Qed.

Lemma choosePivot_range (d : list A) (a b : nat) :
  (8 <= b - a)%nat -> (a <= fst (GoSort.choosePivot less d a b) < b)%nat.
Proof.
  intros Hl. unfold GoSort.choosePivot.
  pose proof (Nat.div_mod_eq (b - a) 4) as Hdiv.
  pose proof (Nat.mod_upper_bound (b - a) 4 ltac:(lia)) as Hmod.
  set (q := ((b - a) / 4)%nat) in *. clearbody q.
  assert (Hge : (8 <=? b - a)%nat = true) by (apply Nat.leb_le; lia). rewrite Hge.
  destruct (50 <=? b - a)%nat eqn:H50.
  - apply Nat.leb_le in H50.
    unfold GoSort.medianAdjacent.
    destruct (GoSort.median less d (a + q * 1 - 1) (a + q * 1) (a + q * 1 + 1) 0)
      as [i s1] eqn:Ei.
    destruct (GoSort.median less d (a + q * 2 - 1) (a + q * 2) (a + q * 2 + 1) s1)
      as [j s2] eqn:Ej.
    destruct (GoSort.median less d (a + q * 3 - 1) (a + q * 3) (a + q * 3 + 1) s2)
      as [k s3] eqn:Ek.
    pose proof (median_among d (a + q * 1 - 1) (a + q * 1) (a + q * 1 + 1) 0) as Hi.
    pose proof (median_among d (a + q * 2 - 1) (a + q * 2) (a + q * 2 + 1) s1) as Hj.
    pose proof (median_among d (a + q * 3 - 1) (a + q * 3) (a + q * 3 + 1) s2) as Hk.
    rewrite Ei in Hi. rewrite Ej in Hj. rewrite Ek in Hk. simpl in Hi, Hj, Hk.
    pose proof (median_among d i j k s3) as Hm.
    destruct (GoSort.median less d i j k s3) as [m s4]. simpl in Hm.
    assert (a <= m < b)%nat by lia.
    destruct s4 as [|[|[|[|[|[|[|[|[|[|[|[|[|s4]]]]]]]]]]]]]; simpl; assumption.
  - apply Nat.leb_gt in H50.
    pose proof (median_among d (a + q * 1) (a + q * 2) (a + q * 3) 0) as Hm.
    destruct (GoSort.median less d (a + q * 1) (a + q * 2) (a + q * 3) 0) as [m s4].
    simpl in Hm. assert (a <= m < b)%nat by lia.
    destruct s4 as [|[|[|[|[|[|[|[|[|[|[|[|[|s4]]]]]]]]]]]]]; simpl; assumption.
Qed.

Lemma reverseLoop_Rearranged (a b rounds : nat) (d : list A) (i j : nat) :
  (a <= i)%nat -> (j < b)%nat -> (b <= length d)%nat ->
  Rearranged a b d (GoSort.reverseLoop rounds d i j).
Proof.
  revert d i j. induction rounds as [|n IH]; intros d i j Hi Hj Hlen; simpl.
  - apply Rearranged_refl.
  - destruct (i <? j)%nat eqn:Hlt; [|apply Rearranged_refl].
    apply Nat.ltb_lt in Hlt.
    eapply Rearranged_trans; [apply (Rearranged_Swap a b d i j); lia|].
    apply IH; try lia. rewrite Swap_length. exact Hlen.
Qed.

Lemma reverseRange_Rearranged (d : list A) (a b : nat) :
  (a < b)%nat -> (b <= length d)%nat ->
  Rearranged a b d (GoSort.reverseRange d a b).
Proof. intros Hab Hlen. apply reverseLoop_Rearranged; lia. Qed.

Lemma breakLoop_S (n i : nat) (random : N) (d : list A) (a idx length modulus : nat) :
  GoSort.breakLoop (S n) i random d a idx length modulus
  = let random := GoSort.xorshiftNext random in
    let other := N.to_nat (N.land random (N.of_nat (modulus - 1))) in
    let other := if (length <=? other)%nat then (other - length)%nat else other in
    GoSort.breakLoop n (i + 1) random (Swap d (idx - 1 + i) (a + other)) a idx length modulus.
Proof. reflexivity. Qed.

Lemma breakLoop_Rearranged (a b idx len modulus rounds : nat) (i : nat) (random : N)
    (d : list A) :
  (b <= length d)%nat -> len = (b - a)%nat -> (0 < len)%nat ->
  (0 < modulus <= 2 * len)%nat ->
  (forall i' : nat, (i <= i' < i + rounds)%nat -> (a <= idx - 1 + i' < b)%nat) ->
  Rearranged a b d (GoSort.breakLoop rounds i random d a idx len modulus).
Proof.
  revert i random d. induction rounds as [|n IH]; intros i random d Hlen Hl Hpos Hmod Hidx.
  - simpl. apply Rearranged_refl.
  - rewrite breakLoop_S. cbv zeta.
    generalize (GoSort.xorshiftNext random). intros random'.
    assert (Hother : (N.to_nat (N.land random' (N.of_nat (modulus - 1))) <= modulus - 1)%nat).
    { pose proof (N.land_le_r random' (N.of_nat (modulus - 1))). lia. }
    set (other := N.to_nat (N.land random' (N.of_nat (modulus - 1)))) in *. clearbody other.
    set (other' := if (len <=? other)%nat then (other - len)%nat else other).
    assert (Hother' : (other' < len)%nat).
    { unfold other'. destruct (len <=? other)%nat eqn:Hc.
      - apply Nat.leb_le in Hc. lia.
      - apply Nat.leb_gt in Hc. lia. }
    clearbody other'.
    eapply Rearranged_trans.
    + apply (Rearranged_Swap a b d (idx - 1 + i) (a + other')); try lia.
      apply Hidx. lia.
    + apply IH; try lia; [rewrite Swap_length; exact Hlen|].
      intros i' Hi'. apply Hidx. lia.
Qed.

Lemma bitsLen_bound (n : nat) : (0 < n)%nat -> (0 < 2 ^ GoSort.bitsLen n <= 2 * n)%nat.
Proof.
  intros Hn. unfold GoSort.bitsLen. destruct n as [|n]; [lia|].
  pose proof (Nat.log2_spec (S n) ltac:(lia)) as [Hlo _].
  rewrite Nat.pow_succ_r'. split; [|lia].
  assert (0 < 2 ^ Nat.log2 (S n))%nat by (apply Nat.neq_0_lt_0, Nat.pow_nonzero; lia). lia.
Qed.

Lemma breakPatterns_Rearranged (d : list A) (a b : nat) :
  (b <= length d)%nat -> Rearranged a b d (GoSort.breakPatterns d a b).
Proof.
  intros Hlen. unfold GoSort.breakPatterns.
  destruct (8 <=? b - a)%nat eqn:H8; [|apply Rearranged_refl].
  apply Nat.leb_le in H8.
  pose proof (Nat.div_mod_eq (b - a) 4) as Hdiv.
  pose proof (Nat.mod_upper_bound (b - a) 4 ltac:(lia)) as Hmod.
  apply breakLoop_Rearranged; try lia.
  apply bitsLen_bound. lia.
Qed.

(** *** The partial insertion sort *)

Lemma guarded_Rearranged (a b : nat) (d d' : list A) :
  Rearranged a b d d' -> guarded d a b -> guarded d' a b.
Proof.
  intros R G Ha. rewrite (Rearranged_keyAt_outside a b d d') by (assumption || lia).
  eapply Rearranged_keys; [exact R|]. apply G, Ha.
Qed.

Lemma ordered_extend (d : list A) (a i : nat) :
  (a < i)%nat -> ordered d a i -> (kAt d (i - 1) <= kAt d i)%Z -> ordered d a (i + 1).
Proof.
  intros Hai Hs Hle p q Hp Hpq Hq.
  destruct (decide (q = i)) as [->|Hne]; [|apply Hs; lia].
  destruct (decide (p = i)) as [->|Hne']; [lia|].
  specialize (Hs p (i - 1)%nat ltac:(lia) ltac:(lia) ltac:(lia)). lia.
Qed.

Lemma skipOrdered_spec (rounds : nat) (d : list A) (a i b : nat) :
  (a < i)%nat -> (i <= b)%nat -> (b <= length d)%nat -> ordered d a i ->
  (i <= GoSort.skipOrdered less rounds d i b <= b)%nat
  /\ ordered d a (GoSort.skipOrdered less rounds d i b).
Proof.
  revert i. induction rounds as [|n IH]; intros i Hai Hib Hlen Hs; simpl.
  - split; [lia|exact Hs].
  - destruct ((i <? b)%nat && negb (Less d i (i - 1))) eqn:Hc.
    + apply andb_true_iff in Hc as [Hlt Hle]. apply Nat.ltb_lt in Hlt.
      rewrite Less_eq in Hle by lia. apply negb_true_iff, Z.ltb_ge in Hle.
      destruct (IH (i + 1)%nat) as [H1 H2]; try lia.
      * apply ordered_extend; assumption.
      * split; [lia|exact H2].
    + split; [lia|exact Hs].
Qed.

Lemma shiftLeft_insertDown (d : list A) (a j : nat) :
  (a <= j)%nat -> (j < length d)%nat ->
  ((0 < a)%nat -> forall k : nat, (a <= k <= j)%nat -> (kAt d (a - 1) <= kAt d k)%Z) ->
  GoSort.shiftLeft less d j = GoSort.insertDown less d a j.
Proof.
  revert d. induction j as [|j' IH]; intros d Haj Hlen Hlow; simpl; [reflexivity|].
  destruct (decide (a = S j')) as [->|Hne].
  - rewrite Nat.ltb_irrefl. simpl.
    specialize (Hlow ltac:(lia) (S j') ltac:(lia)).
    replace (S j' - 1)%nat with j' in Hlow by lia.
    rewrite Less_eq by lia.
    assert (Hc : (kAt d (S j') <? kAt d j')%Z = false) by (apply Z.ltb_ge; lia).
    rewrite Hc. reflexivity.
  - assert (Hlt : (a <? S j')%nat = true) by (apply Nat.ltb_lt; lia). rewrite Hlt. simpl.
    destruct (Less d (S j') j') eqn:Hless; simpl; [|reflexivity].
    apply IH; [lia|rewrite Swap_length; lia|].
    intros Ha k Hk. specialize (Hlow Ha). swap_keys; apply Hlow; lia.
Qed.

Lemma shiftRight_Rearranged (lo b rounds : nat) (d : list A) (j : nat) :
  (lo < j)%nat -> (b <= length d)%nat ->
  Rearranged lo b d (GoSort.shiftRight less rounds d j b).
Proof.
  revert d j. induction rounds as [|n IH]; intros d j Hj Hlen; simpl.
  - apply Rearranged_refl.
  - destruct (j <? b)%nat eqn:Hlt; [|apply Rearranged_refl].
    apply Nat.ltb_lt in Hlt.
    destruct (negb (Less d j (j - 1))); [apply Rearranged_refl|].
    eapply Rearranged_trans; [apply (Rearranged_Swap lo b d j (j - 1)); lia|].
    apply IH; [lia|rewrite Swap_length; exact Hlen].
Qed.

Lemma partialSteps_S (n : nat) (d : list A) (a i b : nat) :
  GoSort.partialSteps less (S n) d a i b
  = let i := GoSort.skipOrdered less (b - a) d i b in
    if (i =? b)%nat then (d, true)
    else if (b - a <? 50)%nat then (d, false)
    else
      let d := Swap d i (i - 1) in
      let d := if (2 <=? i - a)%nat then GoSort.shiftLeft less d (i - 1) else d in
      let d := if (2 <=? b - i)%nat then GoSort.shiftRight less (b - a) d (i + 1) b else d in
      GoSort.partialSteps less n d a i b.
Proof. reflexivity. Qed.

Lemma partialSteps_spec (steps : nat) (d : list A) (a i b : nat) :
  (a < i)%nat -> (i <= b)%nat -> (b <= length d)%nat ->
  ordered d a i -> guarded d a b ->
  Rearranged a b d (fst (GoSort.partialSteps less steps d a i b))
  /\ (snd (GoSort.partialSteps less steps d a i b) = true ->
      ordered (fst (GoSort.partialSteps less steps d a i b)) a b).
Proof.
  revert d i. induction steps as [|n IH]; intros d i Hai Hib Hlen Hs Hg.
  - simpl. split; [apply Rearranged_refl|discriminate].
  - rewrite partialSteps_S. cbv zeta.
    destruct (skipOrdered_spec (b - a) d a i b Hai Hib Hlen Hs) as [Hi' Hs'].
    set (i' := GoSort.skipOrdered less (b - a) d i b) in *. clearbody i'.
    destruct (i' =? b)%nat eqn:Hend.
    { apply Nat.eqb_eq in Hend. subst i'. simpl.
      split; [apply Rearranged_refl|intros _; exact Hs']. }
    apply Nat.eqb_neq in Hend.
    destruct (b - a <? 50)%nat.
    { simpl. split; [apply Rearranged_refl|discriminate]. }
    set (d1 := Swap d i' (i' - 1)).
    assert (R1 : Rearranged a b d d1) by (apply Rearranged_Swap; lia).
    assert (L1 : length d1 = length d) by apply Swap_length.
    assert (S1 : ordered d1 a (i' - 1)).
    { intros p q Hp Hpq Hq. unfold d1. swap_keys. apply Hs'; lia. }
    assert (G1 : guarded d1 a b) by (eapply guarded_Rearranged; eassumption).
    clearbody d1.
    set (d2 := if (2 <=? i' - a)%nat then GoSort.shiftLeft less d1 (i' - 1) else d1).
    assert (H2 : Rearranged a b d1 d2 /\ ordered d2 a i').
    { unfold d2. destruct (2 <=? i' - a)%nat eqn:H2.
      - apply Nat.leb_le in H2.
        rewrite (shiftLeft_insertDown d1 a (i' - 1)); try lia.
        + split; [apply insertDown_Rearranged; lia|].
          replace i' with (S (i' - 1)) at 2 by lia.
          apply insertDown_sorted; try lia.
          intros p q Hp Hpq Hq Hpi Hqi. apply S1; lia.
        + intros Ha k Hk. apply G1; lia.
      - apply Nat.leb_gt in H2. split; [apply Rearranged_refl|].
        intros p q Hp Hpq Hq. assert (p = q) as -> by lia. lia. }
    destruct H2 as [R2 S2]. pose proof (re_length R2) as L2. clearbody d2.
    set (d3 := if (2 <=? b - i')%nat then GoSort.shiftRight less (b - a) d2 (i' + 1) b else d2).
    assert (R3 : Rearranged i' b d2 d3).
    { unfold d3. destruct (2 <=? b - i')%nat; [|apply Rearranged_refl].
      apply shiftRight_Rearranged; lia. }
    clearbody d3.
    assert (R03 : Rearranged a b d d3).
    { eapply Rearranged_trans; [exact R1|]. eapply Rearranged_trans; [exact R2|].
      eapply Rearranged_mono; [| |exact R3]; lia. }
    destruct (IH d3 i') as [R S]; try lia.
    + rewrite (re_length R03). exact Hlen.
    + eapply sortedSeg_outside; [exact R3| |exact S2]. left. lia.
    + eapply guarded_Rearranged; eassumption.
    + split; [eapply Rearranged_trans; eassumption|exact S].
Qed.

Lemma partialInsertionSort_spec (d : list A) (a b : nat) :
  (a < b)%nat -> (b <= length d)%nat -> guarded d a b ->
  Rearranged a b d (fst (GoSort.partialInsertionSort less d a b))
  /\ (snd (GoSort.partialInsertionSort less d a b) = true ->
      ordered (fst (GoSort.partialInsertionSort less d a b)) a b).
Proof.
  intros Hab Hlen Hg. unfold GoSort.partialInsertionSort.
  apply partialSteps_spec; try lia; [|exact Hg].
  intros p q Hp Hpq Hq. assert (p = q) as -> by lia. lia.
Qed.

(** *** Heap sort *)

Lemma siftDown_S (n : nat) (d : list A) (root hi first : nat) :
  GoSort.siftDown less (S n) d root hi first
  = if (hi <=? 2 * root + 1)%nat then d
    else
      let child :=
        if (2 * root + 1 + 1 <? hi)%nat
           && Less d (first + (2 * root + 1)) (first + (2 * root + 1) + 1)
        then (2 * root + 1 + 1)%nat else (2 * root + 1)%nat in
      if negb (Less d (first + root) (first + child)) then d
      else GoSort.siftDown less n (Swap d (first + root) (first + child)) child hi first.
Proof. reflexivity. Qed.

(** Inside [first + lo, first + hi), every node but [root] is at least as
    large as its children, and the parent of [root] is at least as large as
    the children of [root]: after [siftDown] every node is at least as large
    as its children. *)
Lemma siftDown_spec (first hi lo : nat) (rounds : nat) (d : list A) (root : nat) :
  (first + hi <= length d)%nat -> (lo <= root)%nat -> (hi <= root + rounds)%nat ->
  (forall p x : nat, (lo <= p)%nat -> p <> root ->
     x = (2 * p + 1)%nat \/ x = (2 * p + 2)%nat -> (x < hi)%nat ->
     (kAt d (first + x) <= kAt d (first + p))%Z) ->
  (forall p y : nat, (lo <= p)%nat ->
     root = (2 * p + 1)%nat \/ root = (2 * p + 2)%nat ->
     y = (2 * root + 1)%nat \/ y = (2 * root + 2)%nat -> (y < hi)%nat ->
     (kAt d (first + y) <= kAt d (first + p))%Z) ->
  Rearranged (first + lo) (first + hi) d (GoSort.siftDown less rounds d root hi first)
  /\ (forall p x : nat, (lo <= p)%nat ->
        x = (2 * p + 1)%nat \/ x = (2 * p + 2)%nat -> (x < hi)%nat ->
        (kAt (GoSort.siftDown less rounds d root hi first) (first + x)
         <= kAt (GoSort.siftDown less rounds d root hi first) (first + p))%Z).
Proof.
  revert d root. induction rounds as [|n IH]; intros d root Hlen Hroot Hr I1 I2.
  - simpl. split; [apply Rearranged_refl|].
    intros p x Hp Hx Hxhi. apply I1; auto. lia.
  - rewrite siftDown_S.
    destruct (hi <=? 2 * root + 1)%nat eqn:Hleaf.
    { apply Nat.leb_le in Hleaf. split; [apply Rearranged_refl|].
      intros p x Hp Hx Hxhi. apply I1; auto. lia. }
    apply Nat.leb_gt in Hleaf. cbv zeta.
    set (c := if (2 * root + 1 + 1 <? hi)%nat
                 && Less d (first + (2 * root + 1)) (first + (2 * root + 1) + 1)
              then (2 * root + 1 + 1)%nat else (2 * root + 1)%nat).
    assert (Hc : (c = (2 * root + 1)%nat \/ c = (2 * root + 2)%nat) /\ (c < hi)%nat
                 /\ forall x : nat, x = (2 * root + 1)%nat \/ x = (2 * root + 2)%nat ->
                      (x < hi)%nat -> (kAt d (first + x) <= kAt d (first + c))%Z).
    { unfold c.
      destruct ((2 * root + 1 + 1 <? hi)%nat
                && Less d (first + (2 * root + 1)) (first + (2 * root + 1) + 1)) eqn:Hpick.
      - apply andb_true_iff in Hpick as [Hin Hless]. apply Nat.ltb_lt in Hin.
        rewrite Less_eq in Hless by lia. apply Z.ltb_lt in Hless.
        replace (first + (2 * root + 1) + 1)%nat with (first + (2 * root + 1 + 1))%nat
          in Hless by lia.
        split; [right; lia|]. split; [lia|].
        intros x [->| ->] Hx; [lia|].
        replace (first + (2 * root + 2))%nat with (first + (2 * root + 1 + 1))%nat by lia. lia.
      - split; [left; lia|]. split; [lia|].
        intros x [->| ->] Hx; [lia|].
        apply andb_false_iff in Hpick as [Hout|Hge]; [apply Nat.ltb_ge in Hout; lia|].
        rewrite Less_eq in Hge by lia. apply Z.ltb_ge in Hge.
        replace (first + (2 * root + 1) + 1)%nat with (first + (2 * root + 2))%nat
          in Hge by lia.
        exact Hge. }
    clearbody c. destruct Hc as (Hchild & Hchi & Hmax).
    destruct (negb (Less d (first + root) (first + c))) eqn:Hstop.
    { rewrite Less_eq in Hstop by lia. apply negb_true_iff, Z.ltb_ge in Hstop.
      split; [apply Rearranged_refl|].
      intros p x Hp Hx Hxhi. destruct (decide (p = root)) as [->|Hne]; [|apply I1; auto].
      specialize (Hmax x Hx Hxhi). lia. }
    rewrite Less_eq in Hstop by lia. apply negb_false_iff, Z.ltb_lt in Hstop.
    destruct (IH (Swap d (first + root) (first + c)) c) as [R H];
      try (rewrite ?Swap_length; lia).
    + intros p x Hp Hpc Hx Hxhi. rewrite !keyAt_Swap by lia.
      destruct (decide (p = root)) as [->|Hpr].
      * specialize (Hmax x Hx Hxhi). repeat case_decide; try lia.
      * destruct (decide (x = root)) as [->|Hxr].
        -- specialize (I2 p c Hp Hx Hchild Hchi). repeat case_decide; try lia.
        -- specialize (I1 p x Hp Hpr Hx Hxhi). repeat case_decide; try lia.
    + intros p y Hp Hpar Hy Hyhi. rewrite !keyAt_Swap by lia.
      assert (p = root) as -> by lia.
      specialize (I1 c y ltac:(lia) ltac:(lia) Hy Hyhi). repeat case_decide; try lia.
    + split; [|exact H].
      eapply Rearranged_trans; [|exact R]. apply Rearranged_Swap; lia.
Qed.

Lemma heapify_S (i : nat) (d : list A) (hi first : nat) :
  GoSort.heapify less (S i) d hi first
  = GoSort.heapify less i (GoSort.siftDown less hi d (S i) hi first) hi first.
Proof. reflexivity. Qed.

Lemma heapify_O (d : list A) (hi first : nat) :
  GoSort.heapify less 0 d hi first = GoSort.siftDown less hi d 0 hi first.
Proof. reflexivity. Qed.

Lemma heapify_spec (first hi i : nat) (d : list A) :
  (first + hi <= length d)%nat ->
  (forall p x : nat, (i + 1 <= p)%nat ->
     x = (2 * p + 1)%nat \/ x = (2 * p + 2)%nat -> (x < hi)%nat ->
     (kAt d (first + x) <= kAt d (first + p))%Z) ->
  Rearranged first (first + hi) d (GoSort.heapify less i d hi first)
  /\ (forall p x : nat,
        x = (2 * p + 1)%nat \/ x = (2 * p + 2)%nat -> (x < hi)%nat ->
        (kAt (GoSort.heapify less i d hi first) (first + x)
         <= kAt (GoSort.heapify less i d hi first) (first + p))%Z).
Proof.
  revert d. induction i as [|i IH]; intros d Hlen Hheap.
  - rewrite heapify_O.
    destruct (siftDown_spec first hi 0 hi d 0) as [R H]; try lia.
    + intros p x _ Hp. apply Hheap. lia.
    + split; [|intros p x; apply H; lia].
      eapply Rearranged_mono; [| |exact R]; lia.
  - rewrite heapify_S.
    destruct (siftDown_spec first hi (S i) hi d (S i)) as [R H]; try lia.
    + intros p x Hp Hne. apply Hheap. lia.
    + destruct (IH (GoSort.siftDown less hi d (S i) hi first)) as [R' H'].
      * rewrite (re_length R). exact Hlen.
      * intros p x Hp. apply H. lia.
      * split; [|exact H'].
        eapply Rearranged_trans; [|exact R'].
        eapply Rearranged_mono; [| |exact R]; lia.
Qed.

Lemma heap_root_max (d : list A) (first n : nat) :
  (forall p x : nat, x = (2 * p + 1)%nat \/ x = (2 * p + 2)%nat -> (x < n)%nat ->
     (kAt d (first + x) <= kAt d (first + p))%Z) ->
  forall x : nat, (x < n)%nat -> (kAt d (first + x) <= kAt d first)%Z.
Proof.
  intros Hheap x. induction x as [x IH] using lt_wf_ind. intros Hx.
  destruct (decide (x = 0%nat)) as [->|Hpos].
  { rewrite Nat.add_0_r. lia. }
  pose proof (Nat.div_mod_eq (x - 1) 2) as Hdiv.
  pose proof (Nat.mod_upper_bound (x - 1) 2 ltac:(lia)) as Hmod.
  set (p := ((x - 1) / 2)%nat) in *. clearbody p.
  specialize (IH p ltac:(lia) ltac:(lia)).
  specialize (Hheap p x ltac:(lia) Hx). lia.
Qed.

Lemma popAll_S (i : nat) (d : list A) (first : nat) :
  GoSort.popAll less (S i) d first
  = GoSort.popAll less i
      (GoSort.siftDown less (S i) (Swap d first (first + S i)) 0 (S i) first) first.
Proof. reflexivity. Qed.

Lemma popAll_O (d : list A) (first : nat) :
  GoSort.popAll less 0 d first = Swap d first (first + 0).
Proof. reflexivity. Qed.

Lemma popAll_spec (first hi i : nat) (d : list A) :
  (i < hi)%nat -> (first + hi <= length d)%nat ->
  (forall p x : nat, x = (2 * p + 1)%nat \/ x = (2 * p + 2)%nat -> (x < i + 1)%nat ->
     (kAt d (first + x) <= kAt d (first + p))%Z) ->
  ordered d (first + i + 1) (first + hi) ->
  (forall p q : nat, (p <= i)%nat -> (i < q < hi)%nat ->
     (kAt d (first + p) <= kAt d (first + q))%Z) ->
  Rearranged first (first + hi) d (GoSort.popAll less i d first)
  /\ ordered (GoSort.popAll less i d first) first (first + hi).
Proof.
  revert d. induction i as [|i IH]; intros d Hi Hlen Hheap Htail Hcross.
  - rewrite popAll_O. rewrite Nat.add_0_r.
    assert (Hsame : forall k : nat, kAt (Swap d first first) k = kAt d k).
    { intros k. destruct (decide (k < length d)%nat) as [Hk|Hk].
      - rewrite keyAt_Swap by lia. repeat case_decide; subst; reflexivity.
      - unfold keyAt. rewrite !list_lookup_total_alt.
        rewrite !lookup_ge_None_2 by (rewrite ?Swap_length; lia). reflexivity. }
    split; [apply Rearranged_Swap; lia|].
    intros p q Hp Hpq Hq. rewrite !Hsame.
    destruct (decide (p = first)) as [->|Hne].
    + destruct (decide (q = first)) as [->|Hne']; [lia|].
      specialize (Hcross 0%nat (q - first)%nat ltac:(lia) ltac:(lia)).
      rewrite Nat.add_0_r in Hcross.
      replace (first + (q - first))%nat with q in Hcross by lia. exact Hcross.
    + apply Htail; lia.
  - rewrite popAll_S.
    set (d1 := Swap d first (first + S i)).
    assert (Hmax : forall x : nat, (x < S i + 1)%nat -> (kAt d (first + x) <= kAt d first)%Z)
      by (apply heap_root_max; exact Hheap).
    assert (H1 : forall k : nat, (k < length d)%nat ->
              kAt d1 k = if decide (k = first) then kAt d (first + S i)
                         else if decide (k = (first + S i)%nat) then kAt d first
                         else kAt d k).
    { intros k Hk. unfold d1. rewrite keyAt_Swap by lia. reflexivity. }
    assert (Hlen1 : length d1 = length d) by (unfold d1; apply Swap_length).
    assert (R1 : Rearranged first (first + hi) d d1)
      by (unfold d1; apply Rearranged_Swap; lia).
    clearbody d1.
    destruct (siftDown_spec first (S i) 0 (S i) d1 0) as [R2 H2]; try lia.
    + intros p x _ Hp Hx Hxi. rewrite !H1 by lia.
      repeat case_decide; try lia. apply Hheap; [exact Hx|lia].
    + set (d2 := GoSort.siftDown less (S i) d1 0 (S i) first) in *. clearbody d2.
      rewrite Nat.add_0_r in R2.
      assert (Hin : forall k : nat, (k < S i)%nat -> (kAt d2 (first + k) <= kAt d first)%Z).
      { intros k Hk.
        assert (Hall : forall k' : nat, (first <= k' < first + S i)%nat ->
                         (kAt d2 k' <= kAt d first)%Z).
        { apply (Rearranged_keys first (first + S i) d1 d2
                   (fun z => (z <= kAt d first)%Z) R2).
          intros k' Hk'. rewrite H1 by lia.
          repeat case_decide; try lia.
          - specialize (Hmax (S i) ltac:(lia)). exact Hmax.
          - specialize (Hmax (k' - first)%nat ltac:(lia)).
            replace (first + (k' - first))%nat with k' in Hmax by lia. exact Hmax. }
        apply Hall. lia. }
      assert (Hout : forall k : nat, (first + S i <= k < length d)%nat ->
                kAt d2 k = if decide (k = (first + S i)%nat) then kAt d first else kAt d k).
      { intros k Hk. rewrite (Rearranged_keyAt_outside first (first + S i) d1 d2)
          by (assumption || lia).
        rewrite H1 by lia. repeat case_decide; try lia; reflexivity. }
      destruct (IH d2) as [R3 H3]; try lia.
      * rewrite (re_length R2), Hlen1. exact Hlen.
      * intros p x Hx Hxi. apply H2; [lia|exact Hx|lia].
      * intros p q Hp Hpq Hq. rewrite !Hout by lia.
        repeat case_decide; try lia.
        -- specialize (Hcross 0%nat (q - first)%nat ltac:(lia) ltac:(lia)).
           rewrite Nat.add_0_r in Hcross.
           replace (first + (q - first))%nat with q in Hcross by lia. exact Hcross.
        -- apply Htail; lia.
      * intros p q Hp Hq. rewrite (Hout (first + q)%nat) by lia.
        case_decide.
        -- apply Hin. lia.
        -- assert (Hall : forall k' : nat, (first <= k' < first + S i)%nat ->
                            (kAt d2 k' <= kAt d (first + q))%Z).
           { apply (Rearranged_keys first (first + S i) d1 d2
                      (fun z => (z <= kAt d (first + q))%Z) R2).
             intros k' Hk'. rewrite H1 by lia.
             repeat case_decide; try lia.
             - apply Hcross; lia.
             - specialize (Hcross (k' - first)%nat q ltac:(lia) ltac:(lia)).
               replace (first + (k' - first))%nat with k' in Hcross by lia. exact Hcross. }
           apply Hall. lia.
      * split; [|exact H3].
        eapply Rearranged_trans; [exact R1|].
        eapply Rearranged_trans; [|exact R3].
        eapply Rearranged_mono; [| |exact R2]; lia.
Qed.

Lemma heapSort_spec (d : list A) (a b : nat) :
  (a <= b)%nat -> (b <= length d)%nat ->
  Rearranged a b d (GoSort.heapSort less d a b)
  /\ ordered (GoSort.heapSort less d a b) a b.
Proof.
  intros Hab Hb. unfold GoSort.heapSort.
  destruct (b - a)%nat as [|hi'] eqn:Hhi.
  - simpl. split; [apply Rearranged_refl|]. intros i j Hi Hij Hj. lia.
  - pose proof (Nat.div_mod_eq hi' 2) as Hdiv.
    pose proof (Nat.mod_upper_bound hi' 2 ltac:(lia)) as Hmod.
    destruct (heapify_spec a (S hi') (hi' / 2) d) as [R H]; try lia.
    set (d1 := GoSort.heapify less (hi' / 2) d (S hi') a) in *. clearbody d1.
    destruct (popAll_spec a (S hi') hi' d1) as [R' H']; try lia.
    + rewrite (re_length R). lia.
    + intros p x Hx Hxhi. apply H; [exact Hx|lia].
    + intros i j Hi Hij Hj. lia.
    + replace (a + S hi')%nat with b in * by lia.
      split; [|exact H']. eapply Rearranged_trans; [exact R|exact R'].
Qed.

(** *** Pattern-defeating quicksort *)

Lemma ordered_glue (d : list A) (a mid b : nat) (P : Z) :
  (a <= mid < b)%nat -> ordered d a mid -> ordered d (mid + 1) b ->
  (forall k : nat, (a <= k < mid)%nat -> (kAt d k <= P)%Z) -> kAt d mid = P ->
  (forall k : nat, (mid < k < b)%nat -> (P <= kAt d k)%Z) ->
  ordered d a b.
Proof.
  intros Hm Hl Hr Hlo Hmid Hhi i j Hi Hij Hj.
  destruct (decide (j < mid)%nat) as [Hjm|Hjm]; [apply Hl; lia|].
  destruct (decide (mid < i)%nat) as [Him|Him]; [apply Hr; lia|].
  assert (kAt d i <= P)%Z
    by (destruct (decide (i = mid)) as [->|Hne]; [lia|apply Hlo; lia]).
  assert (P <= kAt d j)%Z
    by (destruct (decide (j = mid)) as [->|Hne]; [lia|apply Hhi; lia]).
  lia.
Qed.

Lemma pdqsort_spec (fuel : nat) (d : list A) (a b : nat) :
  (a <= b)%nat -> (b <= length d)%nat -> (b - a < fuel)%nat -> guarded d a b ->
  forall (limit : nat) (wasBalanced wasPartitioned : bool),
    Rearranged a b d (GoSort.pdqsort less fuel d a b limit wasBalanced wasPartitioned)
    /\ ordered (GoSort.pdqsort less fuel d a b limit wasBalanced wasPartitioned) a b.
Proof.
  revert d a b. induction fuel as [|f IH]; intros d a b Hab Hb Hf G limit wb wp; [lia|].
  cbn [GoSort.pdqsort].
  destruct (b - a <=? 12)%nat eqn:Hsmall.
  { split; [apply insertionSort_Rearranged|apply insertionSort_sorted]; exact Hb. }
  apply Nat.leb_gt in Hsmall.
  destruct (limit =? 0)%nat eqn:Hlimit.
  { apply heapSort_spec; assumption. }
  assert (H1 : exists d1 l1,
            (if negb wb then (GoSort.breakPatterns d a b, (limit - 1)%nat) else (d, limit))
            = (d1, l1) /\ Rearranged a b d d1).
  { destruct (negb wb); eexists _, _; (split; [reflexivity|]);
      [apply breakPatterns_Rearranged; exact Hb|apply Rearranged_refl]. }
  destruct H1 as (d1 & l1 & -> & R1).
  pose proof (choosePivot_range d1 a b ltac:(lia)) as Hrange.
  destruct (GoSort.choosePivot less d1 a b) as [pivot hint]. cbn [fst] in Hrange.
  assert (H2 : exists d2 pivot2 hint2,
            match hint with
            | GoSort.decreasingHint =>
                (GoSort.reverseRange d1 a b, (b - 1 - (pivot - a))%nat, GoSort.increasingHint)
            | _ => (d1, pivot, hint)
            end = (d2, pivot2, hint2)
            /\ Rearranged a b d1 d2 /\ (a <= pivot2 < b)%nat).
  { destruct hint; eexists _, _, _; (split; [reflexivity|]); (split; [|lia]);
      try apply Rearranged_refl.
    apply reverseRange_Rearranged; [lia|rewrite (re_length R1); exact Hb]. }
  destruct H2 as (d2 & pivot2 & hint2 & -> & R2 & Hp2).
  assert (R12 : Rearranged a b d d2) by (eapply Rearranged_trans; eassumption).
  assert (H3 : exists d3 done,
            (if wb && wp && GoSort.isIncreasing hint2
             then GoSort.partialInsertionSort less d2 a b else (d2, false))
            = (d3, done)
            /\ Rearranged a b d2 d3 /\ (done = true -> ordered d3 a b)).
  { destruct (wb && wp && GoSort.isIncreasing hint2).
    - destruct (partialInsertionSort_spec d2 a b) as [R S]; [lia| | |].
      + rewrite (re_length R12). exact Hb.
      + eapply guarded_Rearranged; eassumption.
      + destruct (GoSort.partialInsertionSort less d2 a b) as [d3 done].
        exists d3, done. cbn [fst snd] in *. auto.
    - exists d2, false. split; [reflexivity|].
      split; [apply Rearranged_refl|discriminate]. }
  destruct H3 as (d3 & done & -> & R3 & Hdone).
  assert (R13 : Rearranged a b d d3) by (eapply Rearranged_trans; eassumption).
  assert (G3 : guarded d3 a b) by (eapply guarded_Rearranged; eassumption).
  assert (L3 : length d3 = length d) by exact (re_length R13).
  destruct done.
  { split; [exact R13|apply Hdone; reflexivity]. }
  clear Hdone.
  destruct ((0 <? a)%nat && negb (Less d3 (a - 1) pivot2)) eqn:Hdup.
  - apply andb_true_iff in Hdup as [Ha Hnl]. apply Nat.ltb_lt in Ha.
    rewrite Less_eq in Hnl by lia. apply negb_true_iff, Z.ltb_ge in Hnl.
    pose proof (partitionEqual_spec d3 a b pivot2 Hp2 ltac:(lia)) as H4.
    destruct (GoSort.partitionEqual less d3 a b pivot2) as [d4 mid].
    destruct H4 as (R4 & Hmid & Hle & Hgt).
    assert (G4 : guarded d4 a b) by (eapply guarded_Rearranged; eassumption).
    assert (L4 : length d4 = length d3) by exact (re_length R4).
    assert (Hfirst : kAt d4 (a - 1) = kAt d3 (a - 1))
      by (apply (Rearranged_keyAt_outside a b); [exact R4|lia]).
    set (r := GoSort.pdqsort less f d4 mid b l1 wb wp).
    assert (H5 : Rearranged mid b d4 r /\ ordered r mid b).
    { apply IH; try lia. intros _ k Hk.
      specialize (Hle (mid - 1)%nat ltac:(lia)). specialize (Hgt k Hk). lia. }
    clearbody r. destruct H5 as [R5 S5]. split.
    + eapply Rearranged_trans; [exact R13|].
      eapply Rearranged_trans; [exact R4|].
      eapply Rearranged_mono; [| |exact R5]; lia.
    + intros i j Hi Hij Hj.
      destruct (decide (mid <= i)%nat) as [Him|Him]; [apply S5; lia|].
      rewrite (Rearranged_keyAt_outside mid b d4 r i) by (assumption || lia).
      pose proof (Hle i ltac:(lia)) as Hi1. pose proof (G4 Ha i ltac:(lia)) as Hi2.
      destruct (decide (j < mid)%nat) as [Hjm|Hjm].
      * rewrite (Rearranged_keyAt_outside mid b d4 r j) by (assumption || lia).
        pose proof (Hle j ltac:(lia)) as Hj1. pose proof (G4 Ha j ltac:(lia)) as Hj2.
        lia.
      * assert (Hj1 : (kAt d3 pivot2 < kAt r j)%Z).
        { apply (Rearranged_keys mid b d4 r (fun z => (kAt d3 pivot2 < z)%Z) R5);
            [intros k Hk; apply Hgt; lia|lia]. }
        lia.
  - clear Hdup.
    pose proof (partition_spec d3 a b pivot2 Hp2 ltac:(lia)) as H4.
    destruct (GoSort.partition less d3 a b pivot2) as [[d4 mid] already].
    destruct H4 as (R4 & Hmid & Hpk & Hlt & Hge).
    assert (G4 : guarded d4 a b) by (eapply guarded_Rearranged; eassumption).
    assert (L4 : length d4 = length d3) by exact (re_length R4).
    assert (R14 : Rearranged a b d d4) by (eapply Rearranged_trans; eassumption).
    destruct (mid - a <? b - mid)%nat.
    + set (d5 := GoSort.pdqsort less f d4 a mid l1 true true).
      assert (H5 : Rearranged a mid d4 d5 /\ ordered d5 a mid).
      { apply IH; try lia. intros Ha k Hk. apply G4; [exact Ha|lia]. }
      clearbody d5. destruct H5 as [R5 S5].
      assert (Hm5 : kAt d5 mid = kAt d3 pivot2).
      { rewrite (Rearranged_keyAt_outside a mid d4 d5 mid) by (assumption || lia).
        exact Hpk. }
      assert (Hr5 : forall k : nat, (mid < k < b)%nat -> (kAt d3 pivot2 <= kAt d5 k)%Z).
      { intros k Hk. rewrite (Rearranged_keyAt_outside a mid d4 d5 k) by (assumption || lia).
        apply Hge. exact Hk. }
      assert (Hl5 : forall k : nat, (a <= k < mid)%nat -> (kAt d5 k < kAt d3 pivot2)%Z).
      { apply (Rearranged_keys a mid d4 d5 (fun z => (z < kAt d3 pivot2)%Z) R5). exact Hlt. }
      set (r := GoSort.pdqsort less f d5 (mid + 1) b l1 _ already).
      assert (H6 : Rearranged (mid + 1) b d5 r /\ ordered r (mid + 1) b).
      { apply IH; try lia.
        - rewrite (re_length R5). lia.
        - intros _ k Hk. replace (mid + 1 - 1)%nat with mid by lia.
          rewrite Hm5. apply Hr5. lia. }
      clearbody r. destruct H6 as [R6 S6]. split.
      * eapply Rearranged_trans; [exact R14|].
        eapply Rearranged_trans; [eapply Rearranged_mono; [| |exact R5]; lia|].
        eapply Rearranged_mono; [| |exact R6]; lia.
      * apply (ordered_glue r a mid b (kAt d3 pivot2)); [lia| |exact S6| | |].
        -- eapply sortedSeg_outside; [exact R6| |exact S5]. lia.
        -- intros k Hk. rewrite (Rearranged_keyAt_outside (mid + 1) b d5 r k)
             by (assumption || lia).
           specialize (Hl5 k Hk). lia.
        -- rewrite (Rearranged_keyAt_outside (mid + 1) b d5 r mid) by (assumption || lia).
           exact Hm5.
        -- intros k Hk.
           apply (Rearranged_keys (mid + 1) b d5 r (fun z => (kAt d3 pivot2 <= z)%Z) R6);
             [intros k' Hk'; apply Hr5; lia|lia].
    + set (d5 := GoSort.pdqsort less f d4 (mid + 1) b l1 true true).
      assert (H5 : Rearranged (mid + 1) b d4 d5 /\ ordered d5 (mid + 1) b).
      { apply IH; try lia. intros _ k Hk. replace (mid + 1 - 1)%nat with mid by lia.
        rewrite Hpk. apply Hge. lia. }
      clearbody d5. destruct H5 as [R5 S5].
      assert (Hm5 : kAt d5 mid = kAt d3 pivot2).
      { rewrite (Rearranged_keyAt_outside (mid + 1) b d4 d5 mid) by (assumption || lia).
        exact Hpk. }
      assert (Hl5 : forall k : nat, (a <= k < mid)%nat -> (kAt d5 k < kAt d3 pivot2)%Z).
      { intros k Hk.
        rewrite (Rearranged_keyAt_outside (mid + 1) b d4 d5 k) by (assumption || lia).
        apply Hlt. exact Hk. }
      assert (Hr5 : forall k : nat, (mid + 1 <= k < b)%nat -> (kAt d3 pivot2 <= kAt d5 k)%Z).
      { apply (Rearranged_keys (mid + 1) b d4 d5 (fun z => (kAt d3 pivot2 <= z)%Z) R5).
        intros k Hk. apply Hge. lia. }
      set (r := GoSort.pdqsort less f d5 a mid l1 _ already).
      assert (H6 : Rearranged a mid d5 r /\ ordered r a mid).
      { apply IH; try lia.
        - rewrite (re_length R5). lia.
        - intros Ha k Hk.
          rewrite (Rearranged_keyAt_outside (mid + 1) b d4 d5 (a - 1)) by (assumption || lia).
          rewrite (Rearranged_keyAt_outside (mid + 1) b d4 d5 k) by (assumption || lia).
          apply G4; [exact Ha|lia]. }
      clearbody r. destruct H6 as [R6 S6]. split.
      * eapply Rearranged_trans; [exact R14|].
        eapply Rearranged_trans; [eapply Rearranged_mono; [| |exact R5]; lia|].
        eapply Rearranged_mono; [| |exact R6]; lia.
      * apply (ordered_glue r a mid b (kAt d3 pivot2)); [lia|exact S6| | | |].
        -- eapply sortedSeg_outside; [exact R6| |exact S5]. lia.
        -- intros k Hk.
           assert (Hk' : (kAt r k < kAt d3 pivot2)%Z).
           { apply (Rearranged_keys a mid d5 r (fun z => (z < kAt d3 pivot2)%Z) R6);
               [exact Hl5|exact Hk]. }
           lia.
        -- rewrite (Rearranged_keyAt_outside a mid d5 r mid) by (assumption || lia).
           exact Hm5.
        -- intros k Hk. rewrite (Rearranged_keyAt_outside a mid d5 r k)
             by (assumption || lia).
           apply Hr5. lia.
Qed.

Lemma Slice_spec (d : list A) :
  Rearranged 0 (length d) d (GoSort.Slice less d)
  /\ ordered (GoSort.Slice less d) 0 (length d).
Proof.
  unfold GoSort.Slice. apply pdqsort_spec; try lia. intros Ha. lia.
Qed.

End SortFacts.

(** ** The documented behaviour of [sort.Slice], from the segment facts *)

Lemma byLastUsed_key (x y : Branch) :
  byLastUsed x y = (- LastUsed x <? - LastUsed y)%Z.
Proof.
  unfold byLastUsed, After.
  destruct (Z.ltb_spec (LastUsed y) (LastUsed x)), (Z.ltb_spec (- LastUsed x) (- LastUsed y));
    try reflexivity; lia.
Qed.

Lemma SliceSpec_of_segments
    (sorter : (Branch -> Branch -> bool) -> list Branch -> list Branch) :
  (forall data : list Branch,
      Rearranged 0 (length data) data (sorter byLastUsed data)
      /\ sortedSeg (fun b => (- LastUsed b)%Z) (sorter byLastUsed data) 0 (length data)) ->
  SliceSpec sorter.
Proof.
  intros H data. destruct (H data) as [Hre Hs]. split.
  - exact (re_perm Hre).
  - intros i j x y Hij Hx Hy.
    assert (Hj : (j < length data)%nat).
    { rewrite <- (re_length Hre). eapply lookup_lt_Some, Hy. }
    specialize (Hs i j ltac:(lia) ltac:(lia) Hj). unfold keyAt in Hs.
    rewrite (list_lookup_total_correct _ _ _ Hx), (list_lookup_total_correct _ _ _ Hy) in Hs.
    lia.
Qed.

(** Go's [sort.Slice] keeps its promise for the resolver's comparison. *)
Lemma goSlice_spec : SliceSpec Demo.goSlice.
Proof.
  apply SliceSpec_of_segments. intros data. unfold Demo.goSlice.
  apply Slice_spec. apply byLastUsed_key.
Qed.


(** ** The resolver *)
Section Resolver.

Variable time_Parse : string -> string -> option Time.
Variable ToLower : string -> string.
Variable sort_Slice : (Branch -> Branch -> bool) -> list Branch -> list Branch.

Abbreviation Resolve := (GetRecentBranches time_Parse ToLower sort_Slice).
Abbreviation listing := (enumerate time_Parse).

Abbreviation ranking := (ranked time_Parse ToLower sort_Slice).
Abbreviation verdict := (branchHasAuthorCommits ToLower).
Abbreviation lastUsedMap r := (fst (branchLastUsed time_Parse r)).
Abbreviation surviving copy r authors all :=
  (filterBranches ToLower copy r authors (currentUserFor authors r) all).

Lemma GetCurrentUser_error (r : Repo) :
  forall u e, GetCurrentUser r = (u, Some e) -> u = "".
Proof.
  intros u e. unfold GetCurrentUser.
  destruct (err (git r ["config"; "user.email"])); [|congruence].
  destruct (err (git r ["config"; "user.name"])); congruence.
Qed.

Lemma getBranchInfo_cases (refPath : string) (r : Repo) (tick : nat) :
  match err (git r (forEachRef refPath)) with
  | Some e => exists msg, fst (getBranchInfo time_Parse refPath r tick) = Err msg
  | None => exists bs, fst (getBranchInfo time_Parse refPath r tick) = Ok bs
  end.
Proof.
  unfold getBranchInfo. destruct (err (git r (forEachRef refPath))).
  - eexists. reflexivity.
  - destruct (String.eqb _ ""); [eexists; reflexivity|].
    destruct (fold_left _ _ _). eexists. reflexivity.
Qed.

Lemma listing_cases (includeRemote : bool) (r : Repo) :
  match err (git r (forEachRef "refs/heads/")) with
  | Some e => exists msg, listing includeRemote r = Err msg
  | None => exists all, listing includeRemote r = Ok all
  end.
Proof.
  unfold enumerate.
  pose proof (getBranchInfo_cases "refs/heads/" r (snd (branchLastUsed time_Parse r))) as H.
  destruct (err (git r (forEachRef "refs/heads/"))).
  - destruct H as [msg H]. destruct (getBranchInfo _ _ _ _) as [res t].
    simpl in H. subst res. eauto.
  - destruct H as [bs H]. destruct (getBranchInfo _ "refs/heads/" _ _) as [res t].
    simpl in H. subst res. destruct includeRemote; [|eauto].
    destruct (fst (getBranchInfo _ "refs/remotes/" _ _)); eauto.
Qed.

(** A call either returns one of the four errors or hands the ranked
    slice to the final truncation. *)
Lemma Resolve_unfold (copy : Copy) (count : Z) (includeRemote : bool)
    (authors : list string) (r : Repo) :
  (exists e, Resolve copy count includeRemote authors r = Err e /\ ~ Resolvable authors r)
  \/ (exists all, Resolvable authors r
                  /\ listing includeRemote r = Ok all
                  /\ Resolve copy count includeRemote authors r
                     = limitTo count (ranking copy r authors all)).
Proof.
  unfold GetRecentBranches, Resolvable, ranked, currentUserFor.
  destruct (IsInRepository r) eqn:Hrepo.
  { left. eexists. split; [reflexivity|]. intros [H _]. discriminate. }
  destruct (wantsMine authors) eqn:Hmine.
  - destruct (GetCurrentUser r) as [u [e|]] eqn:Huser.
    { left. eexists. split; [reflexivity|]. intros (_ & H & _).
      specialize (H eq_refl). discriminate. }
    destruct (err (git r reflogArgs)) eqn:Hlog.
    { left. eexists. split; [reflexivity|]. intros (_ & _ & H & _). discriminate. }
    pose proof (listing_cases includeRemote r) as Hl.
    destruct (err (git r (forEachRef "refs/heads/"))) eqn:Hheads.
    + destruct Hl as [msg Hl]. rewrite Hl. left. eexists. split; [reflexivity|].
      intros (_ & _ & _ & H). discriminate.
    + destruct Hl as [all Hl]. rewrite Hl. right. exists all. simpl. auto 10.
  - destruct (err (git r reflogArgs)) eqn:Hlog.
    { left. eexists. split; [reflexivity|]. intros (_ & _ & H & _). discriminate. }
    pose proof (listing_cases includeRemote r) as Hl.
    destruct (err (git r (forEachRef "refs/heads/"))) eqn:Hheads.
    + destruct Hl as [msg Hl]. rewrite Hl. left. eexists. split; [reflexivity|].
      intros (_ & _ & _ & H). discriminate.
    + destruct Hl as [all Hl]. rewrite Hl. right. exists all.
      repeat split; auto. discriminate.
Qed.

Lemma limitTo_Ok (count : Z) (branches l : list Branch) :
  limitTo count branches = Ok l ->
  (0 <= count)%Z /\ l = firstn (Z.to_nat count) branches
  \/ (Z.of_nat (length branches) <= count)%Z /\ l = branches.
Proof.
  unfold limitTo. destruct (count <? Z.of_nat (length branches))%Z eqn:Hlt.
  - destruct (count <? 0)%Z eqn:Hneg; [discriminate|].
    intros [= <-]. left. split; [lia|reflexivity].
  - intros [= <-]. right. split; [lia|reflexivity].
Qed.

Lemma limitTo_prefix (count : Z) (branches l : list Branch) :
  limitTo count branches = Ok l -> exists n, l = firstn n branches.
Proof.
  intros H. apply limitTo_Ok in H as [[_ ->]|[_ ->]].
  - eauto.
  - exists (length branches). symmetry. apply firstn_all.
Qed.

Lemma Resolve_Ok (copy : Copy) (count : Z) (includeRemote : bool)
    (authors : list string) (r : Repo) (l : list Branch) :
  Resolve copy count includeRemote authors r = Ok l ->
  exists all, Resolvable authors r
              /\ listing includeRemote r = Ok all
              /\ limitTo count (ranking copy r authors all) = Ok l.
Proof.
  intros H.
  destruct (Resolve_unfold copy count includeRemote authors r)
    as [(e & He & _)|(all & Hres & Hall & Heq)].
  - congruence.
  - exists all. rewrite <- Heq. auto.
Qed.

(** ** The pipeline behind the result *)



Lemma firstn_In_whole {A : Type} (n : nat) (l : list A) (x : A) :
  In x (firstn n l) -> In x l.
Proof.
  revert l. induction n as [|n IH]; intros [|y l]; simpl; try tauto.
  intros [->|H]; auto.
Qed.

Lemma limitTo_zero (branches : list Branch) : limitTo 0 branches = Ok [].
Proof.
  unfold limitTo. destruct (0 <? Z.of_nat (length branches))%Z eqn:H; [reflexivity|].
  apply Z.ltb_ge in H. destruct branches; [reflexivity|simpl in H; lia].
Qed.

Lemma limitTo_negative (count : Z) (branches : list Branch) :
  (count < 0)%Z ->
  (count <? Z.of_nat (length branches))%Z = true
  /\ limitTo count branches = Panic "slice bounds out of range".
Proof.
  intros H. unfold limitTo.
  assert (H1 : (count <? Z.of_nat (length branches))%Z = true) by (apply Z.ltb_lt; lia).
  assert (H2 : (count <? 0)%Z = true) by (apply Z.ltb_lt; lia).
  rewrite H1, H2. auto.
Qed.

Lemma limitTo_nonnegative (count : Z) (branches : list Branch) :
  (0 <= count)%Z -> exists l, limitTo count branches = Ok l.
Proof.
  intros H. unfold limitTo. destruct (count <? Z.of_nat (length branches))%Z; [|eauto].
  assert (H2 : (count <? 0)%Z = false) by (apply Z.ltb_ge; lia).
  rewrite H2. eauto.
Qed.

Lemma limitTo_whole (count : Z) (branches : list Branch) :
  (Z.of_nat (length branches) <= count)%Z -> limitTo count branches = Ok branches.
Proof.
  intros H. unfold limitTo.
  assert (H1 : (count <? Z.of_nat (length branches))%Z = false) by (apply Z.ltb_ge; lia).
  rewrite H1. reflexivity.
Qed.

Lemma Resolve_resolvable (copy : Copy) (count : Z) (includeRemote : bool)
    (authors : list string) (r : Repo) :
  Resolvable authors r ->
  exists all, listing includeRemote r = Ok all
              /\ Resolve copy count includeRemote authors r
                 = limitTo count (ranking copy r authors all).
Proof.
  intros Hres.
  destruct (Resolve_unfold copy count includeRemote authors r)
    as [(e & _ & Hno)|(all & _ & Hall & Heq)].
  - contradiction.
  - eauto.
Qed.

Lemma setLastUsed_Name (m : gmap string Time) (b : Branch) : Name (setLastUsed m b) = Name b.
Proof. unfold setLastUsed. destruct (m !! branchKey b); reflexivity. Qed.

Lemma setLastUsed_IsRemote (m : gmap string Time) (b : Branch) :
  IsRemote (setLastUsed m b) = IsRemote b.
Proof. unfold setLastUsed. destruct (m !! branchKey b); reflexivity. Qed.

Lemma filterBranches_In (copy : Copy) (r : Repo) (authors : list string) (user : string)
    (all : list Branch) (b : Branch) :
  In b (filterBranches ToLower copy r authors user all) <->
  In b all /\ (authorsActive authors = true -> verdict copy r b authors user <> (false, None)).
Proof.
  unfold filterBranches. destruct (authorsActive authors).
  - rewrite filter_In. split; intros [Hin Hv]; split; auto.
    + intros _ Heq. rewrite Heq in Hv. discriminate.
    + specialize (Hv eq_refl). destruct (verdict copy r b authors user) as [[|] [e|]]; try reflexivity.
      exfalso. apply Hv. reflexivity.

  - split; [intros H; split; [exact H|discriminate]|tauto].
Qed.

Lemma filterBranches_keep (copy : Copy) (r : Repo) (authors : list string) (user : string)
    (all : list Branch) (b : Branch) :
  In b all -> verdict copy r b authors user <> (false, None) ->
  In b (filterBranches ToLower copy r authors user all).
Proof. intros Hin Hv. apply filterBranches_In. auto. Qed.

Lemma ranked_Permutation (copy : Copy) (r : Repo) (authors : list string) (all : list Branch) :
  SliceSpec sort_Slice ->
  Permutation (ranking copy r authors all)
    (map (setLastUsed (lastUsedMap r))
         (filterBranches ToLower copy r authors (currentUserFor authors r) all)).
Proof. intros Hs. unfold ranked, stamped. apply Hs. Qed.

Lemma ranked_In (copy : Copy) (r : Repo) (authors : list string) (all : list Branch)
    (x : Branch) :
  SliceSpec sort_Slice ->
  (In x (ranking copy r authors all) <->
   exists b, x = setLastUsed (lastUsedMap r) b
             /\ In b (filterBranches ToLower copy r authors (currentUserFor authors r) all)).
Proof.
  intros Hs. split.
  - intros Hin. eapply Permutation_in in Hin; [|apply ranked_Permutation, Hs].
    apply in_map_iff in Hin as (b & <- & Hb). eauto.
  - intros (b & -> & Hb).
    eapply Permutation_in; [symmetry; apply ranked_Permutation, Hs|].
    apply in_map. exact Hb.
Qed.


(** ** The resolver's claims *)



(** With limit 0 a call returns either one of its errors or the empty list. *)
Lemma limit_zero_cases (copy : Copy) (includeRemote : bool) (authors : list string)
    (r : Repo) :
  (exists e, Resolve copy 0 includeRemote authors r = Err e)
  \/ Resolve copy 0 includeRemote authors r = Ok [].
Proof.
  destruct (Resolve_unfold copy 0 includeRemote authors r)
    as [(e & He & _)|(all & _ & _ & Heq)].
  - left. eauto.
  - right. rewrite Heq. apply limitTo_zero.
Qed.

(** C8 (as amended).  [GetRecentBranches] called with limit 0 returns the
    empty list, and no error, in every repository state in which its four
    fatal queries succeed: the repository check, the user identity when
    "mine" is asked for, the reflog and the listing of local branches. *)
Theorem limit_zero_is_empty (copy : Copy) (includeRemote : bool) (authors : list string)
    (r : Repo) :
  Resolvable authors r ->
  Resolve copy 0 includeRemote authors r = Ok [].
Proof.
  intros Hres.
  destruct (Resolve_resolvable copy 0 includeRemote authors r Hres)
    as (all & _ & ->).
  apply limitTo_zero.
Qed.

(** C10.  With a negative count the guard [len(branches) > count] holds
    whatever the slice is, the slice expression panics, and so does every
    call that gets as far as the truncation; [main] hands the value of [-n]
    to the call as it is. *)
Theorem negative_count_panics (copy : Copy) (count : Z) (includeRemote : bool)
    (authorFlag : string) (r : Repo) :
  (count < 0)%Z ->
  Resolvable (parseAuthors authorFlag) r ->
  (forall branches : list Branch,
      (count <? Z.of_nat (length branches))%Z = true
      /\ limitTo count branches = Panic "slice bounds out of range")
  /\ (forall authors : list string,
         Resolvable authors r ->
         Resolve copy count includeRemote authors r = Panic "slice bounds out of range")
  /\ mainLoad time_Parse ToLower sort_Slice copy count includeRemote authorFlag r
     = Panic "slice bounds out of range".
Proof.
  intros Hneg Hres.
  assert (Hcall : forall authors, Resolvable authors r ->
            Resolve copy count includeRemote authors r = Panic "slice bounds out of range").
  { intros authors Ha.
    destruct (Resolve_resolvable copy count includeRemote
                authors r Ha) as (all & _ & ->).
    apply limitTo_negative, Hneg. }
  split; [|split].
  - intros branches. apply limitTo_negative, Hneg.
  - exact Hcall.
  - unfold mainLoad, loadBranches. apply Hcall, Hres.
Qed.

Lemma verdict_trunk (copy : Copy) (r : Repo) (b : Branch) (authors : list string)
    (user : string) :
  branchKey b = "main" \/ branchKey b = "master" ->
  verdict copy r b authors user = (true, None).
Proof.
  intros H. unfold branchHasAuthorCommits.
  destruct H as [-> | ->]; reflexivity.
Qed.

(** C9.  A branch whose name, without the remote display suffix when it is
    a remote branch, is main or master passes [branchHasAuthorCommits] for
    every list of authors and every user, in both copies, and the filtering
    loop keeps it. *)
Theorem main_master_always_pass (copy : Copy) (r : Repo) (b : Branch)
    (authors : list string) (user : string) (all : list Branch) :
  branchKey b = "main" \/ branchKey b = "master" ->
  verdict copy r b authors user = (true, None)
  /\ (In b all -> In b (filterBranches ToLower copy r authors user all)).
Proof.
  intros H. pose proof (verdict_trunk copy r b authors user H) as Hv.
  split; [exact Hv|].
  intros Hin. apply filterBranches_keep; [exact Hin|]. rewrite Hv. discriminate.
Qed.

Lemma verdict_no_unique (copy : Copy) (r : Repo) (b : Branch) (authors : list string)
    (user mergeBase : string) :
  branchKey b <> "main" -> branchKey b <> "master" ->
  findMergeBase r (gitBranchName b) = (mergeBase, None) ->
  err (uniqueLog r mergeBase b) = None ->
  GoStrings.TrimSpace (stdout (uniqueLog r mergeBase b)) = "" ->
  verdict copy r b authors user = (noUniqueCommits copy, None).
Proof.
  intros Hmain Hmaster Hbase Herr Hout. unfold branchHasAuthorCommits.
  apply String.eqb_neq in Hmain, Hmaster. rewrite Hmain, Hmaster. simpl.
  rewrite Hbase, Herr, Hout. reflexivity.
Qed.

Lemma verdict_fail_open (copy : Copy) (r : Repo) (b : Branch) (authors : list string)
    (user : string) :
  LookupFails r b -> verdict copy r b authors user = (true, None).
Proof.
  intros Hfail. unfold branchHasAuthorCommits, LookupFails in *.
  destruct (String.eqb (branchKey b) "main" || String.eqb (branchKey b) "master");
    [reflexivity|].
  destruct (findMergeBase r (gitBranchName b)) as [mergeBase [e|]]; [reflexivity|].
  simpl in Hfail. destruct Hfail as [Hfail|Hfail]; [congruence|].
  destruct (err (uniqueLog r mergeBase b)); [reflexivity|congruence].
Qed.

(** C2 (as amended).  For a branch other than main and master, with an
    author filter active, whose merge-base is found and whose log of unique
    commits is read and is empty: the second copy of git.go answers "no" and
    the branch is in no returned list; the first copy answers "yes" and the
    branch is in the ranked slice, so that it is returned whenever the limit
    leaves room for it. *)
Theorem no_unique_commits (includeRemote : bool) (authors : list string) (r : Repo)
    (all : list Branch) (b : Branch) (mergeBase : string) :
  SliceSpec sort_Slice ->
  branchKey b <> "main" -> branchKey b <> "master" ->
  authorsActive authors = true ->
  findMergeBase r (gitBranchName b) = (mergeBase, None) ->
  err (uniqueLog r mergeBase b) = None ->
  GoStrings.TrimSpace (stdout (uniqueLog r mergeBase b)) = "" ->
  listing includeRemote r = Ok all ->
  In b all ->
  (forall b0, In b0 all -> Name b0 = Name b -> b0 = b) ->
  (forall user, verdict Second r b authors user = (false, None))
  /\ (forall count l, Resolve Second count includeRemote authors r = Ok l ->
                      forall b', In b' l -> Name b' <> Name b)
  /\ (forall user, verdict First r b authors user = (true, None))
  /\ (exists b', In b' (ranking First r authors all) /\ Name b' = Name b).
Proof.
  intros Hsort Hmain Hmaster Hactive Hbase Herr Hout Hall Hin Huniq.
  assert (Hv : forall copy user, verdict copy r b authors user = (noUniqueCommits copy, None)).
  { intros copy user. eapply verdict_no_unique; eauto. }
  split; [|split; [|split]].
  - intros user. apply (Hv Second).
  - intros count l Hl b' Hb' Hname.
    apply Resolve_Ok in Hl as (all' & _ & Hall' & Hlim).
    rewrite Hall in Hall'. injection Hall' as <-.
    apply limitTo_prefix in Hlim as [n ->].
    apply firstn_In_whole in Hb'. apply (ranked_In _ _ _ _ _ Hsort) in Hb' as (b0 & -> & Hb0).
    rewrite setLastUsed_Name in Hname.
    apply filterBranches_In in Hb0 as [Hb0 Hpass].
    assert (b0 = b) as -> by (apply Huniq; assumption).
    apply (Hpass Hactive). apply (Hv Second).
  - intros user. apply (Hv First).
  - exists (setLastUsed (lastUsedMap r) b). split; [|apply setLastUsed_Name].
    apply ranked_In; [exact Hsort|]. exists b. split; [reflexivity|].
    apply filterBranches_keep; [exact Hin|]. rewrite (Hv First). discriminate.
Qed.

(** C6.  When the merge-base lookup or the log of unique commits fails for
    a branch of the listing, [branchHasAuthorCommits] answers "yes" without
    an error, the branch is in the ranked slice, and the call returns that
    slice cut to the limit: no error comes out of the failed lookup. *)
Theorem lookup_failure_includes (copy : Copy) (includeRemote : bool)
    (authors : list string) (r : Repo) (all : list Branch) (b : Branch) :
  SliceSpec sort_Slice ->
  Resolvable authors r ->
  listing includeRemote r = Ok all ->
  In b all ->
  LookupFails r b ->
  (forall user, verdict copy r b authors user = (true, None))
  /\ (exists b', In b' (ranking copy r authors all) /\ Name b' = Name b
                 /\ IsRemote b' = IsRemote b)
  /\ (forall count, Resolve copy count includeRemote authors r
                    = limitTo count (ranking copy r authors all))
  /\ (forall count, (0 <= count)%Z ->
                    exists l, Resolve copy count includeRemote authors r = Ok l).
Proof.
  intros Hsort Hres Hall Hin Hfail.
  assert (Hcall : forall count, Resolve copy count includeRemote authors r
                                = limitTo count (ranking copy r authors all)).
  { intros count.
    destruct (Resolve_resolvable copy count includeRemote
                authors r Hres) as (all' & Hall' & ->).
    rewrite Hall in Hall'. injection Hall' as <-. reflexivity. }
  split; [|split; [|split]].
  - intros user. apply verdict_fail_open, Hfail.
  - exists (setLastUsed (lastUsedMap r) b).
    split; [|split; [apply setLastUsed_Name|apply setLastUsed_IsRemote]].
    apply ranked_In; [exact Hsort|]. exists b. split; [reflexivity|].
    apply filterBranches_keep; [exact Hin|].
    rewrite (verdict_fail_open copy r b authors _ Hfail). discriminate.
  - exact Hcall.
  - intros count Hcount. rewrite Hcall. apply limitTo_nonnegative, Hcount.
Qed.

Lemma NoDup_map_filter {A B : Type} (f : A -> B) (P : A -> bool) (l : list A) :
  List.NoDup (map f l) -> List.NoDup (map f (List.filter P l)).
Proof.
  induction l as [|x l IH]; simpl; [auto|].
  intros Hnd. apply NoDup_cons_iff in Hnd as [Hx Hl].
  destruct (P x); simpl; [|auto].
  apply NoDup_cons_iff. split; [|auto].
  intros Hin. apply Hx. apply in_map_iff in Hin as (y & Hy & Hin).
  apply filter_In in Hin as [Hin _]. apply in_map_iff. eauto.
Qed.

Lemma NoDup_firstn {A : Type} (n : nat) (l : list A) :
  List.NoDup l -> List.NoDup (firstn n l).
Proof.
  revert l. induction n as [|n IH]; intros [|x l] Hnd; simpl; try apply List.NoDup_nil.
  apply NoDup_cons_iff in Hnd as [Hx Hl]. apply NoDup_cons_iff. split; [|auto].
  intros Hin. apply Hx. eapply firstn_In_whole, Hin.
Qed.

Lemma map_Name_setLastUsed (m : gmap string Time) (l : list Branch) :
  map Name (map (setLastUsed m) l) = map Name l.
Proof.
  induction l as [|b l IH]; simpl; [reflexivity|].
  rewrite setLastUsed_Name, IH. reflexivity.
Qed.

Lemma ranked_names (copy : Copy) (r : Repo) (authors : list string) (all : list Branch) :
  SliceSpec sort_Slice ->
  Permutation (map Name (ranking copy r authors all))
              (map Name (surviving copy r authors all)).
Proof.
  intros Hs.
  transitivity (map Name (map (setLastUsed (lastUsedMap r)) (surviving copy r authors all))).
  - apply Permutation_map, ranked_Permutation, Hs.
  - rewrite map_Name_setLastUsed. reflexivity.
Qed.

(** C1 (as amended).  The list a successful call returns is in descending
    order of last-used time: no later entry is used more recently than an
    earlier one.  (What holds for entries with equal times is left to
    [sort.Slice], which does not promise to keep their order.) *)
Theorem result_sorted_descending (copy : Copy) (count : Z) (includeRemote : bool)
    (authors : list string) (r : Repo) (l : list Branch) :
  SliceSpec sort_Slice ->
  Resolve copy count includeRemote authors r = Ok l ->
  forall (i j : nat) (x y : Branch),
    (i < j)%nat -> l !! i = Some x -> l !! j = Some y ->
    (LastUsed y <= LastUsed x)%Z.
Proof.
  intros Hsort Hl i j x y Hij Hx Hy.
  apply Resolve_Ok in Hl as (all & _ & _ & Hlim).
  apply limitTo_prefix in Hlim as [n ->].
  apply lookup_take_Some in Hx as [Hx _]. apply lookup_take_Some in Hy as [Hy _].
  unfold ranked in Hx, Hy. destruct (Hsort (stamped time_Parse ToLower copy r authors
                                             (currentUserFor authors r) all)) as [_ Hord].
  eapply Hord; eauto.
Qed.

(** C3 (as amended).  Nothing is listed twice that the enumeration lists
    once: every entry of the result is an entry of the enumeration (local
    branches, then the remote ones) with its last-used time set, display names
    that are pairwise distinct in the enumeration are so in the result, and
    without an author filter and with room under the limit the result has
    exactly the names of the enumeration.  No remote branch is dropped for
    having a local namesake. *)
Theorem listing_entries_kept (copy : Copy) (count : Z) (includeRemote : bool)
    (authors : list string) (r : Repo) (all l : list Branch) :
  SliceSpec sort_Slice ->
  listing includeRemote r = Ok all ->
  Resolve copy count includeRemote authors r = Ok l ->
  (forall b', In b' l -> exists b, In b all /\ b' = setLastUsed (lastUsedMap r) b)
  /\ (List.NoDup (map Name all) -> List.NoDup (map Name l))
  /\ (authorsActive authors = false -> (Z.of_nat (length all) <= count)%Z ->
      Permutation (map Name l) (map Name all)).
Proof.
  intros Hsort Hall Hl.
  apply Resolve_Ok in Hl as (all' & _ & Hall' & Hlim).
  rewrite Hall in Hall'. injection Hall' as <-.
  split; [|split].
  - intros b' Hb'. apply limitTo_prefix in Hlim as [n ->].
    apply firstn_In_whole in Hb'. apply (ranked_In _ _ _ _ _ Hsort) in Hb' as (b & -> & Hb).
    apply filterBranches_In in Hb as [Hb _]. eauto.
  - intros Hnd. apply limitTo_prefix in Hlim as [n ->].
    rewrite <- firstn_map. apply NoDup_firstn.
    eapply Permutation_NoDup; [symmetry; apply ranked_names, Hsort|].
    unfold filterBranches. destruct (authorsActive authors); [|exact Hnd].
    apply NoDup_map_filter, Hnd.
  - intros Hoff Hroom.
    assert (Hperm : Permutation (map Name (ranking copy r authors all)) (map Name all)).
    { rewrite (ranked_names _ _ _ _ Hsort). unfold filterBranches. rewrite Hoff. reflexivity. }
    assert (Hlen : length (ranking copy r authors all) = length all).
    { apply Permutation_length in Hperm. rewrite !length_map in Hperm. exact Hperm. }
    apply limitTo_Ok in Hlim as [[_ ->]|[_ ->]]; [|exact Hperm].
    rewrite firstn_all2; [exact Hperm|]. rewrite Hlen. lia.
Qed.

Lemma lastUsedMap_current (r : Repo) :
  fst (GetCurrentBranch r) <> "" ->
  lastUsedMap r !! fst (GetCurrentBranch r) = Some (now r 0).
Proof.
  intros Hcur. unfold branchLastUsed. apply String.eqb_neq in Hcur. rewrite Hcur.
  simpl. apply lookup_insert_eq.
Qed.

(** C4 (as amended).  When the checked-out branch is known, its entry
    is among the branches that survive author filtering, and every other
    surviving branch has a last-used time before the reading of the clock
    stamped on it, then a successful call with limit at least 1 returns that
    entry first, with the clock reading as its last-used time. *)
Theorem current_branch_first (copy : Copy) (count : Z) (includeRemote : bool)
    (authors : list string) (r : Repo) (all l : list Branch) (b : Branch) :
  SliceSpec sort_Slice ->
  (1 <= count)%Z ->
  listing includeRemote r = Ok all ->
  Resolve copy count includeRemote authors r = Ok l ->
  fst (GetCurrentBranch r) <> "" ->
  IsRemote b = false ->
  Name b = fst (GetCurrentBranch r) ->
  In b (surviving copy r authors all) ->
  (forall b', In b' (surviving copy r authors all) -> b' <> b ->
              (LastUsed (setLastUsed (lastUsedMap r) b') < now r 0)%Z) ->
  head l = Some (setLastUsed (lastUsedMap r) b)
  /\ LastUsed (setLastUsed (lastUsedMap r) b) = now r 0.
Proof.
  intros Hsort Hcount Hall Hl Hcur Hlocal Hname Hb Hothers.
  assert (Hstamp : LastUsed (setLastUsed (lastUsedMap r) b) = now r 0).
  { unfold setLastUsed, branchKey. rewrite Hlocal, Hname, (lastUsedMap_current r Hcur).
    reflexivity. }
  split; [|exact Hstamp].
  apply Resolve_Ok in Hl as (all' & _ & Hall' & Hlim).
  rewrite Hall in Hall'. injection Hall' as <-.
  set (rk := ranking copy r authors all) in *.
  assert (Hin : In (setLastUsed (lastUsedMap r) b) rk).
  { apply ranked_In; [exact Hsort|]. eauto. }
  assert (Hhead : head l = head rk).
  { apply limitTo_Ok in Hlim as [[_ ->]|[_ ->]]; [|reflexivity].
    destruct (Z.to_nat count) as [|n] eqn:Hn; [lia|]. destruct rk; reflexivity. }
  rewrite Hhead.
  apply list_elem_of_In, list_elem_of_lookup in Hin as [j Hj].
  destruct rk as [|x0 rest] eqn:Hrk; [discriminate|]. simpl. f_equal.
  destruct j as [|j]; [simpl in Hj; congruence|].
  assert (Hx0 : In x0 rk) by (rewrite Hrk; left; reflexivity).
  apply (ranked_In _ _ _ _ _ Hsort) in Hx0 as (b0 & -> & Hb0).
  destruct (decide (b0 = b)) as [->|Hne]; [reflexivity|].
  specialize (Hothers b0 Hb0 Hne).
  destruct (Hsort (stamped time_Parse ToLower copy r authors (currentUserFor authors r) all))
    as [_ Hord].
  specialize (Hord 0%nat (S j) (setLastUsed (lastUsedMap r) b0)
                   (setLastUsed (lastUsedMap r) b) ltac:(lia)).
  fold (ranked time_Parse ToLower sort_Slice copy r authors all) in Hord.
  fold rk in Hord. rewrite Hrk in Hord. specialize (Hord eq_refl Hj). lia.
Qed.

End Resolver.


(** ** The resolver's claims on the example repository *)

Abbreviation goResolve := (GetRecentBranches Demo.parse Demo.asciiLower Demo.goSlice).

Lemma demo_resolvable (authors : list string) :
  authors = ["mine"] \/ authors = ["all"] \/ authors = ["alice"] ->
  Resolvable authors Demo.repo.
Proof.
  intros [->|[->| ->]]; repeat split; try (intros _); vm_compute; reflexivity.
Qed.

Lemma limit_zero_is_empty_witness :
  Resolvable ["mine"] Demo.repo /\ goResolve First 0 true ["mine"] Demo.repo = Ok [].
Proof.
  assert (H : Resolvable ["mine"] Demo.repo) by (apply demo_resolvable; auto).
  split; [exact H|].
  apply (limit_zero_is_empty Demo.parse Demo.asciiLower Demo.goSlice First true ["mine"]
           Demo.repo H).
Defined.

(** C8, as stated, fails where no user identity is configured and the
    authors are "mine": the call with limit 0 returns an error. *)
Lemma limit_zero_error_counterexample :
  goResolve First 0 false ["mine"] Demo.anonymous
  = Err "failed to get current user: exit status 1".
Proof. vm_compute. reflexivity. Qed.

Lemma negative_count_panics_witness :
  (-1 < 0)%Z
  /\ Resolvable (parseAuthors "") Demo.repo
  /\ mainLoad Demo.parse Demo.asciiLower Demo.goSlice Second (-1) false "" Demo.repo
     = Panic "slice bounds out of range".
Proof.
  assert (H : Resolvable (parseAuthors "") Demo.repo) by (apply demo_resolvable; auto).
  split; [lia|]. split; [exact H|].
  apply (negative_count_panics Demo.parse Demo.asciiLower Demo.goSlice Second (-1) false ""
           Demo.repo ltac:(lia) H).
Defined.

Lemma main_master_always_pass_witness :
  branchKey Demo.remoteMain = "main"
  /\ branchHasAuthorCommits Demo.asciiLower First Demo.repo Demo.remoteMain ["bob"] ""
     = (true, None)
  /\ In Demo.remoteMain
        (filterBranches Demo.asciiLower First Demo.repo ["bob"] "" Demo.allBranches).
Proof.
  assert (H : branchKey Demo.remoteMain = "main") by (vm_compute; reflexivity).
  split; [exact H|].
  destruct (main_master_always_pass Demo.parse Demo.asciiLower First Demo.repo Demo.remoteMain
              ["bob"] ""
              Demo.allBranches (or_introl H)) as [Hv Hkeep].
  split; [exact Hv|]. apply Hkeep. vm_compute. tauto.
Defined.

Lemma demo_listing (includeRemote : bool) :
  enumerate Demo.parse includeRemote Demo.repo
  = Ok (if includeRemote then Demo.allBranches else Demo.localBranches).
Proof. destruct includeRemote; vm_compute; reflexivity. Qed.

Lemma demo_unique_name (b : Branch) :
  In b Demo.allBranches ->
  forall b0, In b0 Demo.allBranches -> Name b0 = Name b -> b0 = b.
Proof.
  intros Hb b0 Hb0. simpl in Hb, Hb0.
  repeat (destruct Hb as [<-|Hb]); try contradiction;
    repeat (destruct Hb0 as [<-|Hb0]); try contradiction;
    vm_compute; intros Heq; try reflexivity; discriminate Heq.
Qed.

Lemma no_unique_commits_witness :
  (forall user, branchHasAuthorCommits Demo.asciiLower Second Demo.repo Demo.merged ["alice"] user
                = (false, None))
  /\ (forall count l, goResolve Second count true ["alice"] Demo.repo = Ok l ->
                      forall b', In b' l -> Name b' <> "merged")
  /\ (forall user, branchHasAuthorCommits Demo.asciiLower First Demo.repo Demo.merged ["alice"] user
                   = (true, None))
  /\ (exists b', In b' (ranked Demo.parse Demo.asciiLower Demo.goSlice First Demo.repo
                          ["alice"] Demo.allBranches)
                 /\ Name b' = "merged").
Proof.
  apply (no_unique_commits Demo.parse Demo.asciiLower Demo.goSlice true ["alice"] Demo.repo
           Demo.allBranches Demo.merged "4d5e6f" goSlice_spec).
  - vm_compute. discriminate.
  - vm_compute. discriminate.
  - reflexivity.
  - vm_compute. reflexivity.
  - vm_compute. reflexivity.
  - vm_compute. reflexivity.
  - apply (demo_listing true).
  - vm_compute. tauto.
  - apply demo_unique_name. vm_compute. tauto.
Defined.

(** C2, as stated, fails on the first copy of git.go: the branch "merged"
    has no commit of its own (the log is read and is empty), the author
    filter is active, and the branch is returned. *)
Lemma merged_branch_counterexample :
  authorsActive ["alice"] = true
  /\ findMergeBase Demo.repo "merged" = ("4d5e6f", None)
  /\ uniqueLog Demo.repo "4d5e6f" Demo.merged = mkOutput "" None
  /\ map Name <$> (match goResolve First 10 false ["alice"] Demo.repo with
                   | Ok l => Some l
                   | _ => None
                   end)
     = Some ["feat-a"; "main"; "merged"].
Proof. vm_compute. repeat split. Qed.

Lemma lookup_failure_includes_witness :
  LookupFails Demo.repo Demo.remoteFeatA
  /\ (exists b', In b' (ranked Demo.parse Demo.asciiLower Demo.goSlice Second Demo.repo
                          ["alice"] Demo.allBranches)
                 /\ Name b' = "feat-a (remote)" /\ IsRemote b' = true)
  /\ (forall count, (0 <= count)%Z ->
                    exists l, goResolve Second count true ["alice"] Demo.repo = Ok l).
Proof.
  assert (Hfail : LookupFails Demo.repo Demo.remoteFeatA).
  { right. vm_compute. discriminate. }
  split; [exact Hfail|].
  destruct (lookup_failure_includes Demo.parse Demo.asciiLower Demo.goSlice Second true
              ["alice"] Demo.repo Demo.allBranches Demo.remoteFeatA goSlice_spec
              (demo_resolvable ["alice"] ltac:(auto)) (demo_listing true)
              ltac:(vm_compute; tauto) Hfail) as (_ & Hin & _ & Hok).
  split; [exact Hin|exact Hok].
Defined.

Lemma demo_resolved : goResolve Second 10 true ["all"] Demo.repo = Ok Demo.resolved.
Proof. vm_compute. reflexivity. Qed.

Example demo_resolved_names :
  map Name Demo.resolved
  = ["feat-b"; "feat-a"; "feat-a (remote)"; "main"; "main (remote)"; "merged"].
Proof. reflexivity. Qed.

Lemma result_sorted_descending_witness :
  goResolve Second 10 true ["all"] Demo.repo = Ok Demo.resolved
  /\ (LastUsed (Demo.resolved !!! 1%nat) <= LastUsed (Demo.resolved !!! 0%nat))%Z.
Proof.
  split; [exact demo_resolved|].
  apply (result_sorted_descending Demo.parse Demo.asciiLower Demo.goSlice Second 10 true
           ["all"] Demo.repo Demo.resolved goSlice_spec demo_resolved 0%nat 1%nat);
    [lia|reflexivity|reflexivity].
Defined.

(** C1, as stated, fails on thirteen branches that sit on one commit, the
    last of them checked out: the twelve others have equal last-used times,
    and the result does not list them in the order they had in the slice
    handed to [sort.Slice]. *)
Lemma ties_reordered_counterexample :
  stamped Demo.parse Demo.asciiLower First Demo.thirteen ["all"] ""
          (Demo.listingOf false Demo.thirteen) = Demo.thirteenBefore
  /\ goResolve First 20 false ["all"] Demo.thirteen = Ok Demo.thirteenAfter
  /\ map Name Demo.thirteenBefore = Demo.thirteenNames
  /\ map Name Demo.thirteenAfter
     = ["work"; "b07"; "b03"; "b04"; "b05"; "b06"; "b01"; "b08"; "b09"; "b10"; "b11"; "b12";
        "b02"]
  /\ ~ tiesKeepOrder Demo.thirteenBefore Demo.thirteenAfter.
Proof.
  repeat split; try (vm_compute; reflexivity).
  intros H. specialize (H 1714557600%Z). vm_compute in H. discriminate H.
Qed.

Lemma listing_entries_kept_witness :
  (forall b', In b' Demo.resolved ->
              exists b, In b Demo.allBranches
                        /\ b' = setLastUsed (fst (branchLastUsed Demo.parse Demo.repo)) b)
  /\ (List.NoDup (map Name Demo.allBranches) -> List.NoDup (map Name Demo.resolved))
  /\ (authorsActive ["all"] = false -> (Z.of_nat (length Demo.allBranches) <= 10)%Z ->
      Permutation (map Name Demo.resolved) (map Name Demo.allBranches)).
Proof.
  apply (listing_entries_kept Demo.parse Demo.asciiLower Demo.goSlice Second 10 true ["all"]
           Demo.repo Demo.allBranches Demo.resolved goSlice_spec (demo_listing true)
           demo_resolved).
Defined.

(** C3, as stated, fails with remote branches included: origin/main and
    origin/feat-a are listed next to the local branches of the same name. *)
Lemma remote_namesake_counterexample :
  goResolve Second 10 true ["all"] Demo.repo = Ok Demo.resolved
  /\ map branchKey Demo.resolved = ["feat-b"; "feat-a"; "feat-a"; "main"; "main"; "merged"]
  /\ ~ List.NoDup (map branchKey Demo.resolved).
Proof.
  split; [exact demo_resolved|]. split; [reflexivity|].
  intros H. apply NoDup_ListNoDup in H.
  assert (Hd : bool_decide (NoDup (map branchKey Demo.resolved)) = false)
    by (vm_compute; reflexivity).
  apply bool_decide_eq_false in Hd. exact (Hd H).
Qed.

Lemma current_branch_first_witness :
  head Demo.resolved = Some (setLastUsed (fst (branchLastUsed Demo.parse Demo.repo)) Demo.featB)
  /\ LastUsed (setLastUsed (fst (branchLastUsed Demo.parse Demo.repo)) Demo.featB)
     = now Demo.repo 0.
Proof.
  apply (current_branch_first Demo.parse Demo.asciiLower Demo.goSlice Second 10 true ["all"]
           Demo.repo Demo.allBranches Demo.resolved Demo.featB goSlice_spec ltac:(lia)
           (demo_listing true) demo_resolved).
  - vm_compute. discriminate.
  - reflexivity.
  - vm_compute. reflexivity.
  - vm_compute. tauto.
  - intros b' Hin Hne. vm_compute in Hin.
    repeat (destruct Hin as [<-|Hin]); try contradiction;
      try (exfalso; apply Hne; reflexivity); vm_compute; reflexivity.
Defined.

(** C4, as stated, fails under the default author filter: feat-b is
    checked out, all its own commits are by somebody else, and the call
    with limit 10 returns a list without it. *)
Lemma current_branch_dropped_counterexample :
  fst (GetCurrentBranch Demo.repo) = "feat-b"
  /\ parseAuthors "" = ["mine"]
  /\ (1 <= 10)%Z
  /\ map Name <$> (match goResolve Second 10 false ["mine"] Demo.repo with
                   | Ok l => Some l
                   | _ => None
                   end)
     = Some ["feat-a"; "main"].
Proof. vm_compute. repeat split; congruence. Qed.

(** ** The workflow's claims *)
Section WorkflowClaims.

Variable run : list string -> Repo -> Output * Repo.
Variable Model : Type.
Variable Show : string -> Repo -> Model -> Model.
Variable addLogEntry : LogLevel -> string -> Model -> Model.

(** C7 (as amended).  [CommitChanges] issues [git add -A] first and, when
    that succeeds, [git commit -m message] and nothing else; the message is
    the subject alone when the body is empty or white space only, and the
    subject, an empty line and the body as given otherwise.  With subject
    "x" and an empty body the message is exactly "x". *)
Theorem commit_message_shape (subject description : string) (s : Sys) :
  snd (snd (CommitChanges run subject description s))
  = snd s
    ++ match err (fst (run ["add"; "-A"] (fst s))) with
       | Some _ => [["add"; "-A"]]
       | None =>
           [ ["add"; "-A"];
             ["commit"; "-m";
              if String.eqb (GoStrings.TrimSpace description) ""
              then subject
              else subject +:+ GoStrings.nl +:+ GoStrings.nl +:+ description] ]
       end
  /\ commitMessage "x" "" = "x".
Proof.
  split; [|reflexivity].
  unfold CommitChanges, exec, commitMessage. destruct s as [r issued]. simpl.
  destruct (run ["add"; "-A"] r) as [o r1]. simpl.
  destruct (err o); simpl; [reflexivity|].
  destruct (run _ r1) as [o2 r2]. simpl.
  destruct (String.eqb (GoStrings.TrimSpace description) ""); simpl;
    destruct (err o2); simpl; rewrite <- app_assoc; reflexivity.
Qed.

(** C5 (as amended).  In the second copy of main.go a request to switch to
    the branch that [GetCurrentBranch] reports (after the remote display
    suffix is taken off the target) is answered with the error
    "already on branch '...'": no command that changes the repository is
    issued, the commit dialog stays closed, two log entries are written.
    The first copy does not look at the current branch: on a clean tree it
    issues [git checkout] for the target. *)
Theorem already_on_branch (branchName currentBranch : string) (m : Model) (s : Sys) :
  GetCurrentBranch (fst s) = (currentBranch, None) ->
  cleanBranchName branchName = currentBranch ->
  switchToBranch run Model Show addLogEntry Second branchName m s
  = (Some ("already on branch '" +:+ currentBranch +:+ "'"),
     addLogEntry INFO ("Already on branch " +:+ currentBranch +:+ ", no switch needed")
       (addLogEntry INFO ("Attempting to switch to branch: " +:+ branchName) m),
     s)
  /\ (fst (HasUncommittedChanges (fst s)) = false ->
      GoStrings.HasSuffix branchName " (remote)" = false ->
      snd (switchToBranch run Model Show addLogEntry First branchName m s)
      = (snd (run ["checkout"; branchName] (fst s)), snd s ++ [["checkout"; branchName]])).
Proof.
  intros Hcur Hclean. split.
  - unfold switchToBranch, switchToBranch2. rewrite Hcur.
    rewrite Hclean, String.eqb_refl. reflexivity.
  - intros Hclean' Hlocal. unfold switchToBranch, switchToBranch1.
    destruct (HasUncommittedChanges (fst s)) as [hasChanges e] eqn:Hdirty.
    assert (e = None) as ->.
    { unfold HasUncommittedChanges in Hdirty. congruence. }
    simpl in Hclean'. subst hasChanges.
    unfold SwitchToBranch, checkout, exec. rewrite Hlocal.
    destruct s as [r issued]. simpl.
    destruct (run ["checkout"; branchName] r) as [o r']. simpl.
    destruct (err o); reflexivity.
Qed.

End WorkflowClaims.

(** C7, as stated, fails for a body of one blank: the body is not empty,
    and the commit is made with the subject alone. *)
Lemma blank_body_counterexample :
  " " <> ""
  /\ snd (snd (CommitChanges Demo.obey "x" " " (Demo.repo, [])))
     = [["add"; "-A"]; ["commit"; "-m"; "x"]]
  /\ "x" <> "x" +:+ GoStrings.nl +:+ GoStrings.nl +:+ " ".
Proof. vm_compute. repeat split; discriminate. Qed.

Lemma already_on_branch_witness :
  GetCurrentBranch Demo.repo = ("feat-b", None)
  /\ cleanBranchName "feat-b" = "feat-b"
  /\ switchToBranch Demo.obey unit Demo.noDialog Demo.silent Second "feat-b" tt (Demo.repo, [])
     = (Some "already on branch 'feat-b'", tt, (Demo.repo, [])).
Proof.
  assert (H1 : GetCurrentBranch Demo.repo = ("feat-b", None)) by (vm_compute; reflexivity).
  assert (H2 : cleanBranchName "feat-b" = "feat-b") by (vm_compute; reflexivity).
  split; [exact H1|]. split; [exact H2|].
  exact (proj1 (already_on_branch Demo.obey unit Demo.noDialog Demo.silent "feat-b" "feat-b" tt
                  (Demo.repo, []) H1 H2)).
Defined.

(** C5, as stated, fails on the first copy of main.go: feat-b is checked
    out, the tree is clean, and a request to switch to feat-b runs
    [git checkout feat-b] and reports no error. *)
Lemma switch_to_current_counterexample :
  GetCurrentBranch Demo.repo = ("feat-b", None)
  /\ cleanBranchName "feat-b" = "feat-b"
  /\ fst (fst (switchToBranch Demo.obey unit Demo.noDialog Demo.silent First "feat-b" tt
                 (Demo.repo, []))) = None
  /\ snd (snd (switchToBranch Demo.obey unit Demo.noDialog Demo.silent First "feat-b" tt
                 (Demo.repo, []))) = [["checkout"; "feat-b"]].
Proof. vm_compute. repeat split; reflexivity. Qed.
